(** * The pitch generator: reply parser, model client and request handler

    A shallow embedding of [src/app.py].  Python strings are sequences of
    code points; they are modelled as lists of [ascii] characters, read as
    the code points 0..255 (on which [str.isspace] and [str.lower] are the
    character-wise functions written out below).  The dictionary built by
    [parse_generated_text] is a finite map from key strings to text.
    Exceptions are explicit: fallible operations return a [result]. *)

From Stdlib Require Import Ascii String.
From stdpp Require Import gmap strings list fin_maps.

Open Scope list_scope.

(** ** Text *)

Definition str := list ascii.

(** A Python string literal. *)
Definition lit (s : string) : str := list_ascii_of_string s.

(** [s.startswith(p)] *)
Fixpoint startswith (p s : str) : bool :=
  match p, s with
  | [], _ => true
  | _ :: _, [] => false
  | a :: p', b :: s' => Ascii.eqb a b && startswith p' s'
  end.

(** [sub in s] *)
Fixpoint contains (sub s : str) : bool :=
  startswith sub s ||
  match s with
  | [] => false
  | _ :: t => contains sub t
  end.

(** The leftmost occurrence of [sep] in [s]: the text before it and the
    text after it ([s.find(sep)], as [str.split] locates a separator). *)
Fixpoint cut (sep s : str) : option (str * str) :=
  if startswith sep s then Some ([], drop (length sep) s)
  else match s with
       | [] => None
       | c :: t =>
           match cut sep t with
           | Some (a, b) => Some (c :: a, b)
           | None => None
           end
       end.

(** [s.split(sep, 1)]: at most one cut. *)
Definition split_once (sep s : str) : list str :=
  match cut sep s with
  | Some (a, b) => [a; b]
  | None => [s]
  end.

(** [s.split(sep)] for a nonempty [sep]: cut at the leftmost occurrence and
    go on after it.  The text after a cut is shorter than [s], so [length s]
    rounds are enough (see [split_unfold]).  The program only splits on the
    constant separators below; Python rejects an empty separator. *)
Fixpoint split_fuel (n : nat) (sep s : str) : list str :=
  match n with
  | 0 => [s]
  | S n' =>
      match cut sep s with
      | Some (a, b) => a :: split_fuel n' sep b
      | None => [s]
      end
  end.

Definition split (sep s : str) : list str := split_fuel (length s) sep s.

(** [c.isspace()] on the code points 0..255. *)
Definition isspace (c : ascii) : bool :=
  let n := nat_of_ascii c in
  (Nat.leb 9 n && Nat.leb n 13) || (Nat.leb 28 n && Nat.leb n 32)
  || Nat.eqb n 133 || Nat.eqb n 160.

Fixpoint lstrip (s : str) : str :=
  match s with
  | [] => []
  | c :: t => if isspace c then lstrip t else s
  end.

Definition rstrip (s : str) : str := rev (lstrip (rev s)).

(** [s.strip()] *)
Definition strip (s : str) : str := rstrip (lstrip s).

(** [c.lower()] on the code points 0..255: A-Z and the accented capitals
    of the Latin-1 block move up by 32. *)
Definition lower_char (c : ascii) : ascii :=
  let n := nat_of_ascii c in
  if (Nat.leb 65 n && Nat.leb n 90)
     || (Nat.leb 192 n && Nat.leb n 222 && negb (Nat.eqb n 215))
  then ascii_of_nat (n + 32) else c.

(** [s.lower()] *)
Definition lower (s : str) : str := map lower_char s.

(** [s.replace(' ', '_')] *)
Definition replace_space (s : str) : str :=
  map (fun c => if Ascii.eqb c " "%char then "_"%char else c) s.

(** Truth value of a string: it is not empty. *)
Definition truthy (s : str) : bool :=
  match s with [] => false | _ :: _ => true end.

(** ** Exceptions *)

(** The exceptions that occur are instances of [Exception]: the
    [IndexError] of an index out of range, and whatever the service
    raises, with its message.  [KeyboardInterrupt] and [SystemExit], which
    [except Exception] does not catch, are left out. *)
Inductive exn : Type :=
| IndexError
| Exception (msg : str).

(** [str(e)] *)
Definition exn_str (e : exn) : str :=
  match e with
  | IndexError => lit "list index out of range"
  | Exception msg => msg
  end.

Inductive result (A : Type) : Type :=
| Returned (a : A)
| Raised (e : exn).
Arguments Returned {A} a.
Arguments Raised {A} e.

#[global] Instance result_ret : MRet result := fun A a => Returned a.
#[global] Instance result_bind : MBind result := fun A B k r =>
  match r with
  | Returned a => k a
  | Raised e => Raised e
  end.

(** [l[i]] *)
Definition index {A} (l : list A) (i : nat) : result A :=
  match l !! i with
  | Some x => Returned x
  | None => Raised IndexError
  end.

(** ** The reply parser *)

Definition marker : str := lit "## Tagline ##".
Definition synthetic : str := lit "Tagline ##".
Definition opener : str := lit "## ".
Definition closer : str := lit "##".
Definition not_found : str := lit "Not found".

(** The dictionary [sections] as it is created. *)
Definition default_sections : gmap string str :=
  list_to_map
    [ ("tagline"%string, not_found);
      ("value_prop"%string, not_found);
      ("elevator_pitch"%string, not_found);
      ("slide_bullets"%string, not_found);
      ("competitors"%string, not_found);
      ("revenue_models"%string, not_found) ].

(** One round of the loop over [parts]. *)
Definition process_part (sections : gmap string str) (part : str)
  : result (gmap string str) :=
  if truthy (strip part) then
    let header_and_content := split_once closer part in
    h ← index header_and_content 0;
    let header := replace_space (lower (strip h)) in
    content ← (if Nat.ltb 1 (length header_and_content)
               then c ← index header_and_content 1; mret (strip c)
               else mret []);
    if contains (lit "tagline") header then
      mret (<["tagline"%string := content]> sections)
    else if contains (lit "value_proposition") header then
      mret (<["value_prop"%string := content]> sections)
    else if contains (lit "elevator_pitch") header then
      mret (<["elevator_pitch"%string := content]> sections)
    else if contains (lit "slide_bullets") header then
      mret (<["slide_bullets"%string := content]> sections)
    else if contains (lit "competitors") header then
      mret (<["competitors"%string := content]> sections)
    else if contains (lit "revenue_models") header then
      mret (<["revenue_models"%string := content]> sections)
    else mret sections
  else mret sections.

(** The loop [for part in parts]. *)
Fixpoint for_parts (sections : gmap string str) (parts : list str)
  : result (gmap string str) :=
  match parts with
  | [] => mret sections
  | part :: rest =>
      sections' ← process_part sections part;
      for_parts sections' rest
  end.

(** The text kept after the first [## Tagline ##], or all of it. *)
Definition clean_text (text : str) : result str :=
  if contains marker text then index (split_once marker text) 1
  else mret text.

(** The chunks the loop runs over. *)
Definition parts_of (clean : str) : list str :=
  split opener (synthetic ++ clean).

Definition parse_generated_text (text : str) : result (gmap string str) :=
  clean ← clean_text text;
  for_parts default_sections (parts_of clean).

(** ** The model client *)

(** The f-string of [generate_pitch_content]: the text before the quoted
    idea and the text after it. *)
Definition prompt_head : str := lit "
    You are an expert startup consultant. Based on the following startup idea, generate a complete business pitch.
    The idea is: ".

Definition prompt_tail : str := lit "

    Please structure your response clearly with the following sections, using the exact markdown headers:
    
    ## Tagline ##
    (A catchy, memorable one-liner)

    ## Value Proposition ##
    (A clear statement explaining the unique benefit the startup provides)
    
    ## Elevator Pitch ##
    (A compelling 60-second summary of the business)
    
    ## Slide Bullets ##
    (5-7 key bullet points for a pitch deck, covering problem, solution, market, team, and ask)
    
    ## Competitors ##
    (List 2-3 potential direct or indirect competitors)
    
    ## Revenue Models ##
    (Suggest 2-3 possible ways the business could make money, e.g., Subscription, Freemium, Ads)
    ".

Definition dquote : ascii := "034"%char.

Definition prompt (idea_bullets : str) : str :=
  prompt_head ++ [dquote] ++ idea_bullets ++ [dquote] ++ prompt_tail.

(** What the handler does besides returning: calls and console output, in
    order. *)
Inductive event : Type :=
| ModelCalled (prompt : str)
| Printed (line : str)
| ParserCalled (text : str)
| TemplateRendered (template : string) (pitch_data : gmap string str).

(** A computation that leaves a trace of events and returns or raises. *)
Definition io (A : Type) : Type := (list event * result A)%type.

#[global] Instance io_ret : MRet io := fun A a => ([], Returned a).
#[global] Instance io_bind : MBind io := fun A B k m =>
  match m with
  | (tr, Returned a) => let '(tr', r) := k a in (tr ++ tr', r)
  | (tr, Raised e) => (tr, Raised e)
  end.

Definition emit (e : event) : io unit := ([e], Returned tt).

Definition lift {A} (r : result A) : io A := ([], r).

(** [try: body except Exception as e: handler(e)] *)
Definition try_except {A} (body : io A) (handler : exn -> io A) : io A :=
  match body with
  | (tr, Returned a) => (tr, Returned a)
  | (tr, Raised e) => let '(tr', r) := handler e in (tr ++ tr', r)
  end.

(** The generative-model service is outside the program: [service p] is
    what [genai.GenerativeModel(GEMINI_MODEL).generate_content(p).text]
    yields, a reply or an exception. *)
Definition generate_pitch_content (service : str -> result str)
  (idea_bullets : str) : io str :=
  try_except
    (emit (ModelCalled (prompt idea_bullets));;
     lift (service (prompt idea_bullets)))
    (fun e =>
       emit (Printed (lit "Gemini API request failed: " ++ exn_str e));;
       mret (lit "Error: Could not generate content from AI service. The following error occurred: "
             ++ exn_str e)).

(** ** The request handler *)

(** [render_template(template, pitch_data=...)]: the response is the
    template with its data. *)
Definition render_template (template : string)
  (pitch_data : gmap string str) : io (string * gmap string str) :=
  emit (TemplateRendered template pitch_data);;
  mret (template, pitch_data).

(** The route [/generate], given the form field [idea]. *)
Definition generate (service : str -> result str) (idea : str)
  : io (string * gmap string str) :=
  raw_text ← generate_pitch_content service idea;
  if contains (lit "Error:") raw_text then
    render_template "results.html" {[ "error"%string := raw_text ]}
  else
    emit (ParserCalled raw_text);;
    pitch_data ← lift (parse_generated_text raw_text);
    render_template "results.html" pitch_data.

(** ** Vocabulary of the statements *)

(** The keys tested by the [if]/[elif] chain of the loop, in the order of
    the tests, each with the dictionary key it writes. *)
Definition known_keys : list (str * string) :=
  [ (lit "tagline", "tagline"%string);
    (lit "value_proposition", "value_prop"%string);
    (lit "elevator_pitch", "elevator_pitch"%string);
    (lit "slide_bullets", "slide_bullets"%string);
    (lit "competitors", "competitors"%string);
    (lit "revenue_models", "revenue_models"%string) ].

(** The dictionary key written for a normalized header: that of the first
    known key the header contains. *)
Fixpoint first_match (keys : list (str * string)) (header : str)
  : option string :=
  match keys with
  | [] => None
  | (key, field) :: rest =>
      if contains key header then Some field else first_match rest header
  end.

(** The normalized header of a chunk: [header] of the loop body. *)
Definition header_of (part : str) : str :=
  match cut closer part with
  | Some (a, _) => replace_space (lower (strip a))
  | None => replace_space (lower (strip part))
  end.

(** The trimmed content of a chunk: [content] of the loop body. *)
Definition content_of (part : str) : str :=
  match cut closer part with
  | Some (_, b) => strip b
  | None => []
  end.

(** The assignment one round of the loop makes, if any. *)
Definition assignment (part : str) : option (string * str) :=
  if truthy (strip part) then
    match first_match known_keys (header_of part) with
    | Some field => Some (field, content_of part)
    | None => None
    end
  else None.

Definition assign (sections : gmap string str) (part : str)
  : gmap string str :=
  match assignment part with
  | Some (field, content) => <[field := content]> sections
  | None => sections
  end.

(** The last value a run of the loop over [parts] writes to [field]. *)
Fixpoint written (field : string) (parts : list str) : option str :=
  match parts with
  | [] => None
  | part :: rest =>
      match written field rest with
      | Some v => Some v
      | None =>
          match assignment part with
          | Some (f, v) => if decide (f = field) then Some v else None
          | None => None
          end
      end
  end.

(** Sections written one after the other, each a header line such as
    [## Competitors ##] followed by its content. *)
Definition layout (secs : list (str * str)) : str :=
  concat (map (fun s => s.1 ++ s.2) secs).

(** The six headers the prompt asks for. *)
Definition h_tagline : str := lit "## Tagline ##".
Definition h_value : str := lit "## Value Proposition ##".
Definition h_pitch : str := lit "## Elevator Pitch ##".
Definition h_bullets : str := lit "## Slide Bullets ##".
Definition h_competitors : str := lit "## Competitors ##".
Definition h_revenue : str := lit "## Revenue Models ##".

(** A reply with the six sections in the order of the prompt, after any
    preamble. *)
Definition six_sections (pre c1 c2 c3 c4 c5 c6 : str) : str :=
  pre ++ layout [ (h_tagline, c1); (h_value, c2); (h_pitch, c3);
                  (h_bullets, c4); (h_competitors, c5); (h_revenue, c6) ].

(** The parser returned a dictionary holding these six values. *)
Definition six_fields (r : result (gmap string str))
  (v1 v2 v3 v4 v5 v6 : str) : Prop :=
  exists m, r = Returned m
    /\ m !! "tagline"%string = Some v1
    /\ m !! "value_prop"%string = Some v2
    /\ m !! "elevator_pitch"%string = Some v3
    /\ m !! "slide_bullets"%string = Some v4
    /\ m !! "competitors"%string = Some v5
    /\ m !! "revenue_models"%string = Some v6.

(** The value of one field of the parser's result. *)
Definition field_of (r : result (gmap string str)) (field : string)
  : option str :=
  match r with
  | Returned m => m !! field
  | Raised _ => None
  end.

(** The delimiter [## ] does not arise in a section content [c] placed
    after the closing [##] of its header: [c] does not begin with a space
    or with [# ], which would complete the delimiter with that [##], and
    [## ] does not occur inside it. *)
Definition delimiter_free (c : str) : Prop :=
  contains opener (closer ++ c) = false.

(** No character of [s] is [#]. *)
Definition hashfree (s : str) : bool :=
  forallb (fun c => negb (Ascii.eqb c "#"%char)) s.

(** The keys of the dictionary. *)
Definition six_keys : gset string :=
  {[ "tagline"%string; "value_prop"%string; "elevator_pitch"%string;
     "slide_bullets"%string; "competitors"%string;
     "revenue_models"%string ]}.

(** ** Derived notions and sample texts *)

(** A section as the statements write it: a header [## title ##] whose
    title has no [#], and a delimiter-free content. *)
Definition well_formed (s : str * str) : Prop :=
  exists title, s.1 = opener ++ title ++ closer
    /\ hashfree title = true /\ delimiter_free s.2.

(** The chunk a well-formed section becomes. *)
Definition chunk (s : str * str) : str := drop 3 s.1 ++ s.2.

(** The text the loop is run on: what [clean_text] returns. *)
Definition remainder (text : str) : str :=
  match cut marker text with
  | Some (_, b) => b
  | None => text
  end.

(** A line break. *)
Definition nl : str := ["010"%char].

(** Section contents as the model writes them, each on lines of its own,
    and a preamble. *)
Definition s_tagline : str := nl ++ lit "Cut right, even lefty." ++ nl.
Definition s_value : str := nl ++ lit "Scissors that fit the left hand." ++ nl.
Definition s_pitch : str := nl ++ lit "A monthly box of left-handed scissors." ++ nl.
Definition s_bullets : str := nl ++ lit "- Problem: right-handed scissors hurt." ++ nl.
Definition s_competitors : str := nl ++ lit "Fiskars" ++ nl.
Definition s_revenue : str := nl ++ lit "Subscription, Upsells".
Definition s_intro : str := lit "Here is your pitch:" ++ nl.

(** Slide bullets under a third-level markdown heading. *)
Definition s_bullets_heading : str :=
  nl ++ lit "### Problem" ++ nl ++ lit "Right-handed scissors hurt." ++ nl.

(** The six sections with the Competitors section moved to the front. *)
Definition competitors_first : list (str * str) :=
  [ (h_competitors, s_competitors); (h_tagline, s_tagline);
    (h_value, s_value); (h_pitch, s_pitch); (h_bullets, s_bullets);
    (h_revenue, s_revenue) ].

(** The reply of the end-to-end example, on one line. *)
Definition one_line_reply : str :=
  lit "## Tagline ## Cut right, even lefty. ## Value Proposition ## ... ## Revenue Models ## Subscription, Upsells".

(** A reply without a Competitors section. *)
Definition no_competitors : str :=
  s_intro ++ layout [ (h_tagline, s_tagline); (h_value, s_value);
                      (h_pitch, s_pitch); (h_bullets, s_bullets);
                      (h_revenue, s_revenue) ].

(** A leading tagline without its header. *)
Definition s_lead : str := lit "Cut right, even lefty." ++ nl.

(** A leading tagline in which the delimiter occurs. *)
Definition s_lead_delimiter : str :=
  lit "Left-handed? ## Cut right, even lefty." ++ nl.

(** The header [Tagline v2] of the example. *)
Definition tagline_v2 : str := lit "Tagline v2 ##" ++ nl ++ lit "Cut right.".

(** A header that contains [competitors] and no key tested before it. *)
Definition main_competitors : str :=
  lit "Main Competitors ##" ++ nl ++ lit "Fiskars".

(** A header that contains two known keys. *)
Definition two_keys : str := lit "Competitors Tagline ##" ++ nl ++ lit "Fiskars".

(** The texts handed to the parser during a run. *)
Definition parser_calls (tr : list event) : list str :=
  omap (fun e => match e with ParserCalled t => Some t | _ => None end) tr.

(** The fixed part of the text returned when the service raises, after
    its first word [Error:]. *)
Definition failure_notice : str :=
  lit " Could not generate content from AI service. The following error occurred: ".

(** The reply of the error-path example. *)
Definition quota_reply : str := lit "Error: quota exceeded".

(** ** Further notions and sample texts *)

(** A header as the loop body normalizes it: trimmed, in lower case, with
    [_] for each space. *)
Definition normalized (h : str) : str := replace_space (lower (strip h)).

(** The section with a given title: the header [## title ##] and a
    content. *)
Definition section_of (title content : str) : str * str :=
  (opener ++ title ++ closer, content).

(** A reply without any header. *)
Definition s_plain : str :=
  nl ++ lit "Cut right, even lefty. We ship left-handed scissors." ++ nl.

(** A section the prompt does not ask for. *)
Definition s_team : str := nl ++ lit "Two left-handed founders." ++ nl.

(** A second Competitors content. *)
Definition s_competitors_again : str := nl ++ lit "Fiskars, Westcott" ++ nl.

(** A service that fails on every prompt. *)
Definition quota_failure : str -> result str :=
  fun _ => Raised (Exception (lit "quota exceeded")).

(** The hints that follow the six headers in the prompt. *)
Definition hint_tagline : str := lit "(A catchy, memorable one-liner)".
Definition hint_value : str :=
  lit "(A clear statement explaining the unique benefit the startup provides)".
Definition hint_pitch : str :=
  lit "(A compelling 60-second summary of the business)".
Definition hint_bullets : str :=
  lit "(5-7 key bullet points for a pitch deck, covering problem, solution, market, team, and ask)".
Definition hint_competitors : str :=
  lit "(List 2-3 potential direct or indirect competitors)".
Definition hint_revenue : str :=
  lit "(Suggest 2-3 possible ways the business could make money, e.g., Subscription, Freemium, Ads)".

(** The indentation of the prompt's lines. *)
Definition indent : str := lit "    ".

(** A service that answers every prompt with the six sections. *)
Definition good_service : str -> result str :=
  fun _ => Returned (six_sections s_intro s_tagline s_value s_pitch
                       s_bullets s_competitors s_revenue).

(** ** The dictionary as an object *)

(** A Python dictionary is an object.  The dictionary display of
    [parse_generated_text] creates a new one at each call,
    [sections[k] = v] changes it in place, and the function returns a
    reference to it.  A store maps references to the dictionaries that
    exist; [new_dict] and [setitem] are the two operations on it that the
    function performs. *)
Definition new_dict (d : gmap string str)
  (store : gmap positive (gmap string str))
  : positive * gmap positive (gmap string str) :=
  let r := fresh (dom store) in (r, <[r := d]> store).

(** [r[k] = v] *)
Definition setitem (r : positive) (k : string) (v : str)
  (store : gmap positive (gmap string str))
  : gmap positive (gmap string str) :=
  alter (<[k := v]>) r store.

(** One round of the loop, on the dictionary that [sections] refers to. *)
Definition process_part_in (sections : positive) (part : str)
  (store : gmap positive (gmap string str))
  : result (gmap positive (gmap string str)) :=
  if truthy (strip part) then
    let header_and_content := split_once closer part in
    h ← index header_and_content 0;
    let header := replace_space (lower (strip h)) in
    content ← (if Nat.ltb 1 (length header_and_content)
               then c ← index header_and_content 1; mret (strip c)
               else mret []);
    if contains (lit "tagline") header then
      mret (setitem sections "tagline" content store)
    else if contains (lit "value_proposition") header then
      mret (setitem sections "value_prop" content store)
    else if contains (lit "elevator_pitch") header then
      mret (setitem sections "elevator_pitch" content store)
    else if contains (lit "slide_bullets") header then
      mret (setitem sections "slide_bullets" content store)
    else if contains (lit "competitors") header then
      mret (setitem sections "competitors" content store)
    else if contains (lit "revenue_models") header then
      mret (setitem sections "revenue_models" content store)
    else mret store
  else mret store.

(** The loop [for part in parts], on the store. *)
Fixpoint for_parts_in (sections : positive) (parts : list str)
  (store : gmap positive (gmap string str))
  : result (gmap positive (gmap string str)) :=
  match parts with
  | [] => mret store
  | part :: rest =>
      store' ← process_part_in sections part store;
      for_parts_in sections rest store'
  end.

(** A call of [parse_generated_text] in a store: the reference returned
    and the store the call leaves. *)
Definition parse_generated_text_in
  (store : gmap positive (gmap string str)) (text : str)
  : result (positive * gmap positive (gmap string str)) :=
  clean ← clean_text text;
  let '(sections, store1) := new_dict default_sections store in
  store2 ← for_parts_in sections (parts_of clean) store1;
  mret (sections, store2).

(** ** The route with its form *)

(** The route [/generate] from the start: [field] is what
    [request.form['idea']] yields, the value of the form field or the
    exception that Flask raises when the field is missing. *)
Definition generate_request (service : str -> result str)
  (field : result str) : io (string * gmap string str) :=
  idea ← lift field;
  generate service idea.

(** * Properties *)

(** ** Searching and cutting *)

Lemma startswith_app p s : startswith p (p ++ s) = true.
Proof.
  induction p as [|a p IH]; simpl; [done|].
  by rewrite Ascii.eqb_refl, IH.
Qed.

Lemma startswith_inv p s :
  startswith p s = true -> s = p ++ drop (length p) s.
Proof.
  revert s; induction p as [|a p IH]; intros [|b s] H; simpl in *; try done.
  apply andb_true_iff in H as [Hab Hp].
  apply Ascii.eqb_eq in Hab as ->. f_equal. by apply IH.
Qed.

Lemma startswith_app_long p u v :
  length p <= length u -> startswith p (u ++ v) = startswith p u.
Proof.
  revert u; induction p as [|a p IH]; intros [|b u] H; simpl in *;
    try done; try lia.
  rewrite IH by lia. done.
Qed.

Lemma cut_inv sep s a b : cut sep s = Some (a, b) -> s = a ++ sep ++ b.
Proof.
  revert a b; induction s as [|c t IH]; intros a b; simpl.
  - destruct (startswith sep []) eqn:E; [|done].
    intros [= <- <-]. by apply startswith_inv in E.
  - destruct (startswith sep (c :: t)) eqn:E.
    + intros [= <- <-]. by apply startswith_inv in E.
    + destruct (cut sep t) as [[a' b']|] eqn:C; [|done].
      intros [= <- <-]. simpl. f_equal. by apply IH.
Qed.

Lemma cut_None sep s : cut sep s = None <-> contains sep s = false.
Proof.
  induction s as [|c t IH]; simpl.
  - destruct (startswith sep []); simpl; split; done.
  - destruct (startswith sep (c :: t)); simpl; [split; done|].
    destruct (cut sep t) as [[a b]|].
    + split; [done|]. intros H. apply IH in H. done.
    + split; [|done]. intros _. by apply IH.
Qed.

Lemma cut_length sep s a b :
  cut sep s = Some (a, b) -> length s = length a + length sep + length b.
Proof.
  intros H. apply cut_inv in H as ->. rewrite !length_app. lia.
Qed.

Lemma cut_app sep s w a b :
  cut sep s = Some (a, b) -> cut sep (s ++ w) = Some (a, b ++ w).
Proof.
  revert a b; induction s as [|c t IH]; intros a b; simpl.
  - destruct (startswith sep []) eqn:E; [|done].
    destruct sep; [|done]. intros [= <- <-]. simpl.
    destruct w; done.
  - destruct (startswith sep (c :: t)) eqn:E.
    + intros [= <- <-].
      pose proof (startswith_inv _ _ E) as Hs.
      assert (Hlen : length sep <= length (c :: t)).
      { apply (f_equal length) in Hs. rewrite length_app in Hs. lia. }
      change (c :: t ++ w) with ((c :: t) ++ w).
      rewrite startswith_app_long, E by done.
      by rewrite drop_app_le.
    + change (c :: t ++ w) with ((c :: t) ++ w).
      destruct (cut sep t) as [[a' b']|] eqn:C; [|done].
      intros [= <- <-].
      pose proof (cut_length _ _ _ _ C) as HL.
      rewrite startswith_app_long, E by (simpl; lia).
      simpl. by rewrite (IH _ _ eq_refl).
Qed.

(** ** Splitting *)

Lemma split_fuel_enough sep n m s :
  sep <> [] -> length s <= n -> length s <= m ->
  split_fuel n sep s = split_fuel m sep s.
Proof.
  intros Hsep. revert m s.
  assert (Hnil : cut sep [] = None) by (destruct sep; done).
  induction n as [|n IH]; intros [|m] s Hn Hm; simpl; try done.
  - destruct s; [|simpl in Hn; lia]. by rewrite Hnil.
  - destruct s; [|simpl in Hm; lia]. by rewrite Hnil.
  - destruct (cut sep s) as [[a b]|] eqn:C; [|done].
    apply cut_length in C.
    assert (0 < length sep) by (destruct sep; [done|simpl; lia]).
    f_equal. apply IH; lia.
Qed.

Lemma split_unfold sep s :
  sep <> [] ->
  split sep s = match cut sep s with
                | Some (a, b) => a :: split sep b
                | None => [s]
                end.
Proof.
  intros Hsep. unfold split.
  destruct s as [|c t].
  - simpl. destruct sep; done.
  - change (length (c :: t)) with (S (length t)).
    cbn [split_fuel].
    destruct (cut sep (c :: t)) as [[a b]|] eqn:C; [|done].
    apply cut_length in C.
    assert (0 < length sep) by (destruct sep; [done|simpl; lia]).
    f_equal. apply split_fuel_enough; simpl in *; try done; lia.
Qed.

Lemma opener_nonempty : opener <> [].
Proof. done. Qed.

(** An occurrence of [## ] ends with a space, so none ends inside a
    following [##]. *)
Lemma opener_no_straddle x :
  contains opener x = false -> contains opener (x ++ closer) = false.
Proof.
  induction x as [|a t IH]; [done|].
  intros H. cbn [contains] in H. apply orb_false_iff in H as [Hs Ht].
  change ((a :: t) ++ closer) with (a :: (t ++ closer)).
  cbn [contains]. rewrite (IH Ht), orb_false_r.
  destruct t as [|b [|c t']]; simpl in *.
  - by destruct (Ascii.eqb "#" a).
  - by destruct (Ascii.eqb "#" a), (Ascii.eqb "#" b).
  - done.
Qed.

(** Where the first [## ] of a text is. *)
Lemma cut_opener x y :
  contains opener (x ++ closer) = false ->
  cut opener (x ++ opener ++ y) = Some (x, y).
Proof.
  induction x as [|a t IH]; [done|].
  intros H. change ((a :: t) ++ closer) with (a :: (t ++ closer)) in H.
  cbn [contains] in H. apply orb_false_iff in H as [Hs Ht].
  assert (Hs' : startswith opener ((a :: t) ++ opener ++ y) = false).
  { replace ((a :: t) ++ opener ++ y)
      with ((a :: t ++ closer) ++ " "%char :: y)
      by (simpl; by rewrite <- app_assoc).
    rewrite startswith_app_long; [done|].
    simpl. rewrite length_app. simpl. lia. }
  change ((a :: t) ++ opener ++ y) with (a :: (t ++ opener ++ y)) in *.
  cbn [cut]. by rewrite Hs', (IH Ht).
Qed.

(** Text before a [## ] is split on its own. *)
Lemma split_opener_app y z :
  split opener (y ++ opener ++ z) = split opener y ++ split opener z.
Proof.
  remember (length y) as n eqn:Hn.
  revert y Hn. induction n as [n IH] using lt_wf_ind. intros y ->.
  rewrite (split_unfold opener (y ++ _)), (split_unfold opener y)
    by apply opener_nonempty.
  destruct (cut opener y) as [[a b]|] eqn:C.
  - rewrite (cut_app _ _ _ _ _ C). simpl. f_equal.
    apply cut_length in C. simpl in C.
    apply (IH (length b)); [lia|done].
  - apply cut_None in C. apply opener_no_straddle in C.
    by rewrite (cut_opener _ _ C).
Qed.

(** ** Trimming *)

Lemma lstrip_nil s : lstrip s = [] <-> forallb isspace s = true.
Proof.
  induction s as [|c t IH]; simpl; [done|].
  destruct (isspace c); simpl; [done|]. split; done.
Qed.

Lemma forallb_lstrip s : forallb isspace (lstrip s) = forallb isspace s.
Proof.
  induction s as [|c t IH]; simpl; [done|].
  destruct (isspace c) eqn:E; simpl; [done|]. by rewrite E.
Qed.

Lemma forallb_rev (f : ascii -> bool) s : forallb f (rev s) = forallb f s.
Proof.
  induction s as [|c t IH]; simpl; [done|].
  rewrite forallb_app, IH. simpl. rewrite andb_true_r. apply andb_comm.
Qed.

Lemma truthy_strip s : truthy (strip s) = negb (forallb isspace s).
Proof.
  unfold strip, rstrip.
  destruct (forallb isspace s) eqn:E; simpl.
  - apply lstrip_nil in E. rewrite E. done.
  - destruct (rev (lstrip (rev (lstrip s)))) as [|x l] eqn:R; [|done].
    exfalso. apply (f_equal (@rev ascii)) in R.
    rewrite rev_involutive in R. simpl in R.
    apply lstrip_nil in R. rewrite forallb_rev, forallb_lstrip in R.
    congruence.
Qed.

Lemma lstrip_app_keep x c y :
  isspace c = false -> lstrip (x ++ c :: y) = lstrip x ++ c :: y.
Proof.
  intros Hc. induction x as [|a t IH]; simpl.
  - by rewrite Hc.
  - destruct (isspace a); done.
Qed.

Lemma rstrip_cons c t : isspace c = false -> rstrip (c :: t) = c :: rstrip t.
Proof.
  intros Hc. unfold rstrip. simpl.
  rewrite lstrip_app_keep by done. by rewrite rev_app_distr.
Qed.

Lemma lstrip_idem s : lstrip (lstrip s) = lstrip s.
Proof.
  induction s as [|c t IH]; simpl; [done|].
  destruct (isspace c) eqn:E; [done|]. simpl. by rewrite E.
Qed.

Lemma lstrip_head s : lstrip s = [] \/ exists c t, lstrip s = c :: t /\ isspace c = false.
Proof.
  induction s as [|c t IH]; simpl; [by left|].
  destruct (isspace c) eqn:E; [done|]. right. by exists c, t.
Qed.

Lemma rstrip_idem s : rstrip (rstrip s) = rstrip s.
Proof.
  unfold rstrip. by rewrite rev_involutive, lstrip_idem.
Qed.

(** Trimming a trimmed text changes nothing. *)
Lemma strip_idem s : strip (strip s) = strip s.
Proof.
  unfold strip.
  destruct (lstrip_head s) as [->|(c & t & -> & Hc)]; [done|].
  rewrite rstrip_cons by done. simpl. rewrite Hc.
  rewrite rstrip_cons by done. by rewrite rstrip_idem.
Qed.

(** ** Chunks of a well-formed reply *)

Lemma startswith_head p0 p a s :
  a <> p0 -> startswith (p0 :: p) (a :: s) = false.
Proof.
  intros H. cbn [startswith].
  destruct (Ascii.eqb_spec p0 a); [congruence|done].
Qed.

Lemma hashfree_cons a t :
  hashfree (a :: t) = true -> a <> "#"%char /\ hashfree t = true.
Proof.
  unfold hashfree. cbn [forallb]. intros H.
  apply andb_true_iff in H as [Ha Ht]. split; [|done].
  by destruct (Ascii.eqb_spec a "#").
Qed.

Lemma hashfree_opener title y :
  hashfree title = true ->
  contains opener (title ++ y) = contains opener y.
Proof.
  induction title as [|a t IH]; [done|].
  intros H. apply hashfree_cons in H as [Ha Ht].
  change ((a :: t) ++ y) with (a :: (t ++ y)). cbn [contains].
  rewrite (IH Ht). unfold opener at 1, lit. cbn [list_ascii_of_string].
  by rewrite startswith_head.
Qed.

Lemma hashfree_cut_closer title c :
  hashfree title = true ->
  cut closer (title ++ closer ++ c) = Some (title, c).
Proof.
  induction title as [|a t IH]; [done|].
  intros H. apply hashfree_cons in H as [Ha Ht].
  change ((a :: t) ++ closer ++ c) with (a :: (t ++ closer ++ c)).
  cbn [cut]. rewrite (IH Ht).
  unfold closer at 1, lit. cbn [list_ascii_of_string].
  by rewrite startswith_head.
Qed.

Lemma chunk_not_blank title c :
  truthy (strip (title ++ closer ++ c)) = true.
Proof.
  rewrite truthy_strip, forallb_app. simpl. by rewrite andb_false_r.
Qed.

Lemma chunk_delimiter_free s :
  well_formed s -> contains opener (chunk s) = false.
Proof.
  intros (title & Hh & Ht & Hc). unfold chunk. rewrite Hh.
  change (drop 3 (opener ++ title ++ closer)) with (title ++ closer).
  rewrite <- app_assoc. by rewrite hashfree_opener.
Qed.

Lemma split_no_opener s :
  contains opener s = false -> split opener s = [s].
Proof.
  intros H. rewrite split_unfold by apply opener_nonempty.
  apply cut_None in H. by rewrite H.
Qed.

Lemma split_layout fc secs :
  contains opener fc = false -> Forall well_formed secs ->
  split opener (fc ++ layout secs) = fc :: map chunk secs.
Proof.
  intros Hfc Hwf. revert fc Hfc.
  induction Hwf as [|s secs Hs Hsecs IH]; intros fc Hfc.
  - unfold layout. simpl. rewrite app_nil_r. by apply split_no_opener.
  - pose proof (chunk_delimiter_free s Hs) as Hchunk.
    destruct Hs as (title & Hh & Ht & Hc).
    replace (fc ++ layout (s :: secs))
      with (fc ++ opener ++ (chunk s ++ layout secs)).
    + rewrite split_opener_app, split_no_opener by done.
      simpl. f_equal. by apply IH.
    + unfold layout, chunk. cbn [map concat]. rewrite Hh.
      change (drop 3 (opener ++ title ++ closer)) with (title ++ closer).
      f_equal. destruct s as [h c]. simpl in *. subst h.
      simpl. by rewrite <- !app_assoc.
Qed.

(** ** The loop *)

Lemma process_part_eq sections part :
  process_part sections part = Returned (assign sections part).
Proof.
  unfold process_part, assign, assignment, header_of, content_of, split_once.
  destruct (truthy (strip part)); [|done].
  unfold known_keys. cbn [first_match].
  destruct (cut closer part) as [[a b]|]; cbn;
    repeat (destruct (contains _ _); [done|]); done.
Qed.

Lemma for_parts_eq sections parts :
  for_parts sections parts = Returned (foldl assign sections parts).
Proof.
  revert sections. induction parts as [|p rest IH]; intros m; [done|].
  cbn [for_parts foldl]. rewrite process_part_eq. cbn. apply IH.
Qed.

Lemma clean_text_eq text : clean_text text = Returned (remainder text).
Proof.
  unfold clean_text, remainder, split_once.
  destruct (contains marker text) eqn:E.
  - destruct (cut marker text) as [[a b]|] eqn:C; [done|].
    apply cut_None in C. congruence.
  - apply cut_None in E. by rewrite E.
Qed.

Lemma parse_eq text :
  parse_generated_text text
  = Returned (foldl assign default_sections (parts_of (remainder text))).
Proof.
  unfold parse_generated_text. rewrite clean_text_eq. cbn.
  apply for_parts_eq.
Qed.

Lemma lookup_assign sections part k :
  assign sections part !! k
  = match assignment part with
    | Some (f, v) => if decide (f = k) then Some v else sections !! k
    | None => sections !! k
    end.
Proof.
  unfold assign. destruct (assignment part) as [[f v]|]; [|done].
  by rewrite lookup_insert.
Qed.

Lemma lookup_foldl sections parts k :
  foldl assign sections parts !! k
  = match written k parts with
    | Some v => Some v
    | None => sections !! k
    end.
Proof.
  revert sections. induction parts as [|p rest IH]; intros m; [done|].
  cbn [foldl written]. rewrite IH, lookup_assign.
  destruct (written k rest); [done|].
  destruct (assignment p) as [[f v]|]; [|done].
  by destruct (decide (f = k)).
Qed.

Lemma written_app k l1 l2 :
  written k (l1 ++ l2)
  = match written k l2 with
    | Some v => Some v
    | None => written k l1
    end.
Proof.
  induction l1 as [|p rest IH]; simpl.
  - by destruct (written k l2).
  - rewrite IH. by destruct (written k l2).
Qed.

Lemma written_none k parts :
  (forall p v, p ∈ parts -> assignment p <> Some (k, v)) ->
  written k parts = None.
Proof.
  induction parts as [|p rest IH]; intros H; [done|].
  cbn [written]. rewrite IH.
  - destruct (assignment p) as [[f v]|] eqn:E; [|done].
    destruct (decide (f = k)) as [->|]; [|done].
    exfalso. apply (H p v); [by left|done].
  - intros q v Hq. apply H. by right.
Qed.

Lemma written_Some k parts w :
  written k parts = Some w ->
  exists p, p ∈ parts /\ assignment p = Some (k, w).
Proof.
  induction parts as [|p rest IH]; [done|]. cbn [written].
  destruct (written k rest) as [w'|].
  - intros [= ->]. destruct (IH eq_refl) as (q & Hq & Eq).
    exists q. split; [by right|done].
  - destruct (assignment p) as [[f u]|] eqn:E; [|done].
    destruct (decide (f = k)) as [->|]; [|done].
    intros [= ->]. exists p. split; [by left|done].
Qed.

Lemma written_None k parts p v :
  written k parts = None -> p ∈ parts -> assignment p <> Some (k, v).
Proof.
  induction parts as [|q rest IH]; [by intros _ ?%elem_of_nil|].
  cbn [written].
  destruct (written k rest) as [w'|]; [done|].
  intros H [->|Hp]%elem_of_cons; [|by apply IH].
  intros E. rewrite E in H. by rewrite decide_True in H.
Qed.

Lemma written_unique k parts v :
  (exists p, p ∈ parts /\ assignment p = Some (k, v)) ->
  (forall p v', p ∈ parts -> assignment p = Some (k, v') -> v' = v) ->
  written k parts = Some v.
Proof.
  intros (q & Hq & Eq) Hall.
  destruct (written k parts) as [w|] eqn:W.
  - apply written_Some in W as (p & Hp & Ep).
    f_equal. by apply (Hall p).
  - exfalso. by apply (written_None _ _ q v W).
Qed.

Lemma assignment_chunk title c :
  hashfree title = true ->
  assignment (title ++ closer ++ c)
  = match first_match known_keys (replace_space (lower (strip title))) with
    | Some field => Some (field, strip c)
    | None => None
    end.
Proof.
  intros H. unfold assignment, header_of, content_of.
  by rewrite chunk_not_blank, hashfree_cut_closer.
Qed.

Lemma assignment_strip part f v :
  assignment part = Some (f, v) -> strip v = v.
Proof.
  unfold assignment, content_of.
  destruct (truthy _); [|done].
  destruct (first_match _ _); [|done].
  destruct (cut closer part) as [[a b]|]; intros [= <- <-]; [|done].
  apply strip_idem.
Qed.

Lemma first_match_known header f :
  first_match known_keys header = Some f -> f ∈ six_keys.
Proof.
  unfold known_keys. cbn [first_match].
  repeat (destruct (contains _ header); [intros [= <-]; set_solver|]).
  done.
Qed.

Lemma assignment_key part f v :
  assignment part = Some (f, v) -> f ∈ six_keys.
Proof.
  unfold assignment. destruct (truthy _); [|done].
  destruct (first_match _ _) as [g|] eqn:E; [|done].
  intros [= <- <-]. by apply first_match_known in E.
Qed.

Lemma dom_default : dom default_sections = six_keys.
Proof.
  unfold default_sections, six_keys. cbn [list_to_map foldr].
  rewrite !dom_insert_L, dom_empty_L. set_solver.
Qed.

Lemma dom_foldl sections parts :
  dom sections = six_keys -> dom (foldl assign sections parts) = six_keys.
Proof.
  revert sections. induction parts as [|p rest IH]; intros m Hm; [done|].
  cbn [foldl]. apply IH. unfold assign.
  destruct (assignment p) as [[f v]|] eqn:E; [|done].
  apply assignment_key in E. rewrite dom_insert_L, Hm.
  apply subseteq_union_1_L. by apply singleton_subseteq_l.
Qed.

(** ** Where the loop starts *)

Lemma cut_here sep y : cut sep (sep ++ y) = Some ([], y).
Proof.
  assert (E : cut sep (sep ++ y)
              = if startswith sep (sep ++ y)
                then Some ([], drop (length sep) (sep ++ y))
                else None).
  { destruct (sep ++ y) eqn:Hs; cbn [cut]; [done|].
    rewrite <- Hs. by rewrite startswith_app. }
  by rewrite E, startswith_app, drop_app_length.
Qed.

Lemma cut_leftmost sep x y :
  exists a b, cut sep (x ++ sep ++ y) = Some (a, b) /\ length a <= length x.
Proof.
  induction x as [|c t (a & b & IH & Hlen)].
  - exists [], y. split; [|done]. exact (cut_here sep y).
  - change ((c :: t) ++ sep ++ y) with (c :: (t ++ sep ++ y)).
    cbn [cut]. destruct (startswith sep _).
    + eexists [], _. split; [done|simpl; lia].
    + rewrite IH. exists (c :: a), b. split; [done|simpl; lia].
Qed.

(** After the marker has been removed and [Tagline ##] put in front, the
    chunks end with those of the text that followed the marker. *)
Lemma parts_after_marker pre rest :
  exists parts0,
    parts_of (remainder (pre ++ marker ++ rest))
    = parts0 ++ split opener (synthetic ++ rest).
Proof.
  unfold parts_of, remainder.
  destruct (cut_leftmost marker pre rest) as (a & b & C & Hlen).
  rewrite C. apply cut_inv in C.
  assert (Ha : a = take (length a) pre).
  { apply (f_equal (take (length a))) in C.
    rewrite take_app_le in C by done. by rewrite take_app_length in C. }
  rewrite <- (take_drop (length a) pre), <- Ha, <- app_assoc in C.
  apply app_inv_head in C.
  destruct (drop (length a) pre) as [|x [|y [|z d]]]; simpl in C.
  - injection C as <-. by exists [].
  - discriminate C.
  - discriminate C.
  - injection C as -> -> -> C.
    exists (split opener d).
    assert (synthetic ++ b = d ++ opener ++ (synthetic ++ rest)) as ->
      by (symmetry; exact C).
    apply split_opener_app.
Qed.

Lemma assignment_tagline c :
  assignment (synthetic ++ c) = Some ("tagline"%string, strip c).
Proof.
  change (synthetic ++ c) with (lit "Tagline " ++ closer ++ c).
  by rewrite assignment_chunk.
Qed.

Lemma assignment_value c :
  assignment (chunk (h_value, c)) = Some ("value_prop"%string, strip c).
Proof.
  change (chunk (h_value, c))
    with ((lit "Value Proposition " ++ closer) ++ c).
  by rewrite <- app_assoc, assignment_chunk.
Qed.

Lemma assignment_pitch c :
  assignment (chunk (h_pitch, c)) = Some ("elevator_pitch"%string, strip c).
Proof.
  change (chunk (h_pitch, c)) with ((lit "Elevator Pitch " ++ closer) ++ c).
  by rewrite <- app_assoc, assignment_chunk.
Qed.

Lemma assignment_bullets c :
  assignment (chunk (h_bullets, c)) = Some ("slide_bullets"%string, strip c).
Proof.
  change (chunk (h_bullets, c)) with ((lit "Slide Bullets " ++ closer) ++ c).
  by rewrite <- app_assoc, assignment_chunk.
Qed.

Lemma assignment_competitors c :
  assignment (chunk (h_competitors, c))
  = Some ("competitors"%string, strip c).
Proof.
  change (chunk (h_competitors, c))
    with ((lit "Competitors " ++ closer) ++ c).
  by rewrite <- app_assoc, assignment_chunk.
Qed.

Lemma assignment_revenue c :
  assignment (chunk (h_revenue, c))
  = Some ("revenue_models"%string, strip c).
Proof.
  change (chunk (h_revenue, c))
    with ((lit "Revenue Models " ++ closer) ++ c).
  by rewrite <- app_assoc, assignment_chunk.
Qed.

Lemma well_formed_header title c :
  hashfree title = true -> delimiter_free c ->
  well_formed (opener ++ title ++ closer, c).
Proof. intros Ht Hc. by exists title. Qed.

Lemma well_formed_five c2 c3 c4 c5 c6 :
  delimiter_free c2 -> delimiter_free c3 -> delimiter_free c4 ->
  delimiter_free c5 -> delimiter_free c6 ->
  Forall well_formed
    [ (h_value, c2); (h_pitch, c3); (h_bullets, c4);
      (h_competitors, c5); (h_revenue, c6) ].
Proof.
  intros. repeat apply Forall_cons_2; try apply Forall_nil_2.
  - by apply (well_formed_header (lit "Value Proposition ")).
  - by apply (well_formed_header (lit "Elevator Pitch ")).
  - by apply (well_formed_header (lit "Slide Bullets ")).
  - by apply (well_formed_header (lit "Competitors ")).
  - by apply (well_formed_header (lit "Revenue Models ")).
Qed.

Lemma tagline_chunk_delimiter_free c :
  delimiter_free c -> contains opener (synthetic ++ c) = false.
Proof.
  intros Hc. change (synthetic ++ c) with (lit "Tagline " ++ closer ++ c).
  by rewrite hashfree_opener.
Qed.

(** The chunks of a reply whose Tagline section is followed by well-formed
    sections: whatever the text before the marker leaves, then one chunk
    per section. *)
Lemma parse_sections pre c1 secs :
  delimiter_free c1 -> Forall well_formed secs ->
  exists parts0,
    parse_generated_text (pre ++ layout ((h_tagline, c1) :: secs))
    = Returned (foldl assign default_sections
                  (parts0 ++ (synthetic ++ c1) :: map chunk secs)).
Proof.
  intros Hc Hsecs.
  destruct (parts_after_marker pre (c1 ++ layout secs)) as [parts0 Hp].
  exists parts0. rewrite parse_eq.
  replace (pre ++ layout ((h_tagline, c1) :: secs))
    with (pre ++ marker ++ c1 ++ layout secs).
  - rewrite Hp, app_assoc, split_layout; [done| |done].
    by apply tagline_chunk_delimiter_free.
  - unfold layout. cbn [map concat]. simpl.
    by rewrite <- ?app_assoc.
Qed.

(** The same without a marker. *)
Lemma parse_no_marker c1 secs :
  contains marker (c1 ++ layout secs) = false ->
  delimiter_free c1 -> Forall well_formed secs ->
  parse_generated_text (c1 ++ layout secs)
  = Returned (foldl assign default_sections
                ((synthetic ++ c1) :: map chunk secs)).
Proof.
  intros Hm Hc Hsecs. rewrite parse_eq. unfold remainder, parts_of.
  apply cut_None in Hm. rewrite Hm, app_assoc, split_layout; [done| |done].
  by apply tagline_chunk_delimiter_free.
Qed.

Ltac read_field :=
  rewrite lookup_foldl, written_app; cbn [written map];
  rewrite ?assignment_tagline, ?assignment_value, ?assignment_pitch,
    ?assignment_bullets, ?assignment_competitors, ?assignment_revenue;
  repeat case_decide; simplify_eq; done.

(** C1 (as amended): when each of the six headers, in the order of the
    prompt, is followed by a content in which the delimiter [## ] does not
    arise, the six fields hold exactly the trimmed contents, whatever
    precedes the first header. *)
Theorem parse_six_sections pre c1 c2 c3 c4 c5 c6 :
  delimiter_free c1 -> delimiter_free c2 -> delimiter_free c3 ->
  delimiter_free c4 -> delimiter_free c5 -> delimiter_free c6 ->
  six_fields (parse_generated_text (six_sections pre c1 c2 c3 c4 c5 c6))
    (strip c1) (strip c2) (strip c3) (strip c4) (strip c5) (strip c6).
Proof.
  intros H1 H2 H3 H4 H5 H6. unfold six_sections.
  destruct (parse_sections pre c1 _ H1 (well_formed_five _ _ _ _ _ H2 H3 H4 H5 H6))
    as [parts0 ->].
  eexists. split; [reflexivity|].
  repeat split; read_field.
Qed.

Lemma parse_six_sections_witness :
  six_fields
    (parse_generated_text
       (six_sections s_intro s_tagline s_value s_pitch s_bullets
          s_competitors s_revenue))
    (strip s_tagline) (strip s_value) (strip s_pitch) (strip s_bullets)
    (strip s_competitors) (strip s_revenue).
Proof. apply parse_six_sections; reflexivity. Defined.

Lemma six_fields_field r v1 v2 v3 v4 v5 v6 :
  six_fields r v1 v2 v3 v4 v5 v6 ->
  field_of r "tagline" = Some v1
  /\ field_of r "value_prop" = Some v2
  /\ field_of r "elevator_pitch" = Some v3
  /\ field_of r "slide_bullets" = Some v4
  /\ field_of r "competitors" = Some v5
  /\ field_of r "revenue_models" = Some v6.
Proof. intros (m & -> & H). exact H. Qed.

(** C1 (as stated) fails: six headers in order, each followed by nonempty
    content, but the slide bullets start with a [### Problem] heading, in
    which the delimiter [## ] occurs; the field holds [#] only. *)
Lemma six_sections_inner_heading :
  s_tagline <> [] /\ s_value <> [] /\ s_pitch <> []
  /\ s_bullets_heading <> [] /\ s_competitors <> [] /\ s_revenue <> []
  /\ field_of
       (parse_generated_text
          (six_sections [] s_tagline s_value s_pitch s_bullets_heading
             s_competitors s_revenue)) "slide_bullets" = Some (lit "#")
  /\ ~ six_fields
       (parse_generated_text
          (six_sections [] s_tagline s_value s_pitch s_bullets_heading
             s_competitors s_revenue))
       (strip s_tagline) (strip s_value) (strip s_pitch)
       (strip s_bullets_heading) (strip s_competitors) (strip s_revenue).
Proof.
  assert (E : field_of
       (parse_generated_text
          (six_sections [] s_tagline s_value s_pitch s_bullets_heading
             s_competitors s_revenue)) "slide_bullets" = Some (lit "#"))
    by (vm_compute; reflexivity).
  do 6 (split; [discriminate|]). split; [exact E|].
  intros (_ & _ & _ & H & _)%six_fields_field.
  rewrite E in H. vm_compute in H. discriminate H.
Qed.

Lemma elem_of_five (s : str * str) c2 c3 c4 c5 c6 :
  s ∈ [ (h_value, c2); (h_pitch, c3); (h_bullets, c4);
        (h_competitors, c5); (h_revenue, c6) ] ->
  s = (h_value, c2) \/ s = (h_pitch, c3) \/ s = (h_bullets, c4)
  \/ s = (h_competitors, c5) \/ s = (h_revenue, c6).
Proof.
  rewrite !elem_of_cons, elem_of_nil. tauto.
Qed.

Ltac five_cases H :=
  apply elem_of_five in H as [->|[->|[->|[->| ->]]]];
  rewrite ?assignment_value, ?assignment_pitch, ?assignment_bullets,
    ?assignment_competitors, ?assignment_revenue in *.

(** The field written by the five sections after the Tagline section, in
    any order. *)
Lemma written_five secs c2 c3 c4 c5 c6 k v s :
  secs ≡ₚ [ (h_value, c2); (h_pitch, c3); (h_bullets, c4);
            (h_competitors, c5); (h_revenue, c6) ] ->
  s ∈ secs -> assignment (chunk s) = Some (k, v) ->
  written k (map chunk secs) = Some v.
Proof.
  intros Hperm Hs Es.
  apply written_unique.
  - exists (chunk s). split; [|done]. apply list_elem_of_fmap. by exists s.
  - intros p v' Hp Ep.
    apply list_elem_of_fmap in Hp as (s' & -> & Hs').
    rewrite Hperm in Hs, Hs'.
    five_cases Hs; five_cases Hs'; simplify_eq; done.
Qed.

(** C2 (as amended): when the Tagline section comes first and the five
    other sections follow it in any order, each field holds the trimmed
    content of its section, whatever precedes the first [## Tagline ##];
    and a text is parsed as the text from its first [## Tagline ##] on:
    what precedes that marker is discarded. *)
Theorem parse_any_order_after_tagline :
  (forall pre c1 c2 c3 c4 c5 c6 secs,
      secs ≡ₚ [ (h_value, c2); (h_pitch, c3); (h_bullets, c4);
                (h_competitors, c5); (h_revenue, c6) ] ->
      delimiter_free c1 -> delimiter_free c2 -> delimiter_free c3 ->
      delimiter_free c4 -> delimiter_free c5 -> delimiter_free c6 ->
      six_fields
        (parse_generated_text (pre ++ layout ((h_tagline, c1) :: secs)))
        (strip c1) (strip c2) (strip c3) (strip c4) (strip c5) (strip c6))
  /\ (forall text before after,
         cut marker text = Some (before, after) ->
         parse_generated_text text
         = parse_generated_text (marker ++ after)).
Proof.
  split.
  - intros pre c1 c2 c3 c4 c5 c6 secs Hperm H1 H2 H3 H4 H5 H6.
    assert (Hwf : Forall well_formed secs).
    { rewrite Hperm. by apply well_formed_five. }
    destruct (parse_sections pre c1 secs H1 Hwf) as [parts0 ->].
    assert (Hin : forall s,
      s ∈ [ (h_value, c2); (h_pitch, c3); (h_bullets, c4);
            (h_competitors, c5); (h_revenue, c6) ] -> s ∈ secs).
    { intros s Hs. by rewrite Hperm. }
    assert (Htag : written "tagline" (map chunk secs) = None).
    { apply written_none. intros p v Hp.
      apply list_elem_of_fmap in Hp as (s & -> & Hs).
      rewrite Hperm in Hs. five_cases Hs; done. }
    eexists. split; [reflexivity|].
    repeat split; rewrite lookup_foldl, written_app; cbn [written].
    + by rewrite Htag, assignment_tagline, decide_True.
    + rewrite (written_five secs c2 c3 c4 c5 c6 "value_prop" (strip c2)
                   (h_value, c2) Hperm);
        [done | apply Hin; set_solver | apply assignment_value].
    + rewrite (written_five secs c2 c3 c4 c5 c6 "elevator_pitch" (strip c3)
                   (h_pitch, c3) Hperm);
        [done | apply Hin; set_solver | apply assignment_pitch].
    + rewrite (written_five secs c2 c3 c4 c5 c6 "slide_bullets" (strip c4)
                   (h_bullets, c4) Hperm);
        [done | apply Hin; set_solver | apply assignment_bullets].
    + rewrite (written_five secs c2 c3 c4 c5 c6 "competitors" (strip c5)
                   (h_competitors, c5) Hperm);
        [done | apply Hin; set_solver | apply assignment_competitors].
    + rewrite (written_five secs c2 c3 c4 c5 c6 "revenue_models" (strip c6)
                   (h_revenue, c6) Hperm);
        [done | apply Hin; set_solver | apply assignment_revenue].
  - intros text before after C.
    rewrite !parse_eq. unfold remainder.
    by rewrite C, cut_here.
Qed.

Lemma parse_any_order_after_tagline_witness :
  six_fields
    (parse_generated_text
       (s_intro ++ layout [ (h_tagline, s_tagline); (h_revenue, s_revenue);
                            (h_competitors, s_competitors);
                            (h_bullets, s_bullets); (h_pitch, s_pitch);
                            (h_value, s_value) ]))
    (strip s_tagline) (strip s_value) (strip s_pitch) (strip s_bullets)
    (strip s_competitors) (strip s_revenue)
  /\ parse_generated_text (s_intro ++ marker ++ s_tagline)
     = parse_generated_text (marker ++ s_tagline).
Proof.
  split.
  - apply (proj1 parse_any_order_after_tagline); try reflexivity.
    exact (Permutation_sym
             (Permutation_rev [ (h_value, s_value); (h_pitch, s_pitch);
                                (h_bullets, s_bullets);
                                (h_competitors, s_competitors);
                                (h_revenue, s_revenue) ])).
  - apply (proj2 parse_any_order_after_tagline _ s_intro). reflexivity.
Defined.

(** C2 (as stated) fails: with the Competitors section before the Tagline
    section, the competitors field keeps [Not found]. *)
Lemma competitors_before_tagline_lost :
  competitors_first
    ≡ₚ [ (h_tagline, s_tagline); (h_value, s_value); (h_pitch, s_pitch);
         (h_bullets, s_bullets); (h_competitors, s_competitors);
         (h_revenue, s_revenue) ]
  /\ field_of (parse_generated_text (layout competitors_first))
       "competitors" = Some not_found
  /\ ~ six_fields (parse_generated_text (layout competitors_first))
         (strip s_tagline) (strip s_value) (strip s_pitch)
         (strip s_bullets) (strip s_competitors) (strip s_revenue).
Proof.
  assert (E : field_of (parse_generated_text (layout competitors_first))
                "competitors" = Some not_found) by (vm_compute; reflexivity).
  split; [|split; [done|]].
  - unfold competitors_first.
    exact (Permutation_middle
             [ (h_tagline, s_tagline); (h_value, s_value);
               (h_pitch, s_pitch); (h_bullets, s_bullets) ]
             [ (h_revenue, s_revenue) ]
             (h_competitors, s_competitors)).
  - intros (_ & _ & _ & _ & H & _)%six_fields_field.
    rewrite E in H. vm_compute in H. discriminate H.
Qed.

(** C3: on the one-line reply of the example the delimiter [## ] also
    matches the closing [##] of each header and the space after it, so
    headers and contents fall into separate chunks and the matched fields
    are empty. *)
Theorem one_line_reply_fields :
  parts_of (remainder one_line_reply)
  = [ lit "Tagline "; lit "Cut right, even lefty. ";
      lit "Value Proposition "; lit "... "; lit "Revenue Models ";
      lit "Subscription, Upsells" ]
  /\ field_of (parse_generated_text one_line_reply) "tagline" = Some []
  /\ field_of (parse_generated_text one_line_reply) "revenue_models"
     = Some [].
Proof. repeat split; vm_compute; reflexivity. Qed.

Lemma first_match_elem keys header field :
  first_match keys header = Some field ->
  exists key, (key, field) ∈ keys /\ contains key header = true.
Proof.
  induction keys as [|[k f] rest IH]; [done|]. cbn [first_match].
  destruct (contains k header) eqn:E.
  - intros [= ->]. exists k. split; [by left|done].
  - intros (key & Hin & Hc)%IH. exists key. split; [by right|done].
Qed.

Lemma snd_injective (keys : list (str * string)) k k' f :
  NoDup (keys.*2) -> (k, f) ∈ keys -> (k', f) ∈ keys -> k = k'.
Proof.
  induction keys as [|[k0 f0] rest IH]; [by intros _ ?%elem_of_nil|].
  cbn [fmap list_fmap]. intros [Hnot Hnd]%NoDup_cons.
  assert (Hrest : forall k1, (k1, f0) ∈ rest -> False).
  { intros k1 H1. apply Hnot. apply list_elem_of_fmap.
    by exists (k1, f0). }
  intros [?|H1]%elem_of_cons [?|H2]%elem_of_cons; simplify_eq.
  - done.
  - by destruct (Hrest k').
  - by destruct (Hrest k).
  - by apply IH.
Qed.

Lemma known_fields_distinct : NoDup (known_keys.*2).
Proof. apply (bool_decide_unpack _). vm_compute. exact I. Qed.

Lemma first_match_contains key field header :
  (key, field) ∈ known_keys ->
  first_match known_keys header = Some field ->
  contains key header = true.
Proof.
  intros Hk (key' & Hk' & Hc)%first_match_elem.
  by rewrite (snd_injective _ _ _ _ known_fields_distinct Hk Hk').
Qed.

Lemma default_lookup key field :
  (key, field) ∈ known_keys -> default_sections !! field = Some not_found.
Proof.
  unfold known_keys. rewrite !elem_of_cons, elem_of_nil.
  intros [H|[H|[H|[H|[H|[H|[]]]]]]]; injection H as -> ->;
    vm_compute; reflexivity.
Qed.

(** C4: when a known key occurs in the normalized header of no chunk, the
    field that key writes holds [Not found]. *)
Theorem absent_key_not_found text key field :
  (key, field) ∈ known_keys ->
  (forall clean part,
      clean_text text = Returned clean -> part ∈ parts_of clean ->
      contains key (header_of part) = false) ->
  exists m, parse_generated_text text = Returned m
    /\ m !! field = Some not_found.
Proof.
  intros Hk Habsent. rewrite parse_eq. eexists. split; [reflexivity|].
  rewrite lookup_foldl, written_none; [by apply (default_lookup key)|].
  intros p v Hp E.
  specialize (Habsent _ p (clean_text_eq text) Hp).
  unfold assignment in E. destruct (truthy _); [|done].
  destruct (first_match _ _) as [f|] eqn:F; [|done].
  injection E as -> _.
  apply (first_match_contains key) in F; [congruence|done].
Qed.

(** No chunk header contains the key, as a test that can be run. *)
Lemma absent_by_forallb text key :
  forallb (fun part => negb (contains key (header_of part)))
    (parts_of (remainder text)) = true ->
  forall clean part,
    clean_text text = Returned clean -> part ∈ parts_of clean ->
    contains key (header_of part) = false.
Proof.
  intros H clean part Hc Hp. rewrite clean_text_eq in Hc.
  injection Hc as <-.
  rewrite forallb_forall in H. apply negb_true_iff, H.
  by apply list_elem_of_In.
Qed.

Lemma absent_key_not_found_witness :
  exists m, parse_generated_text no_competitors = Returned m
    /\ m !! "competitors"%string = Some not_found.
Proof.
  apply (absent_key_not_found no_competitors (lit "competitors")).
  - vm_compute. set_solver.
  - apply absent_by_forallb. vm_compute. reflexivity.
Defined.

(** C5 (as amended): when the text has no [## Tagline ##] and begins with
    a tagline content in which the delimiter [## ] does not arise (it does
    not begin with a space or with [# ], which would complete the
    delimiter with the prepended [Tagline ##], and [## ] does not occur in
    it), followed by the five remaining sections, their contents with the
    same property, the tagline field holds the trimmed leading content
    (and the other fields their sections). *)
Theorem parse_without_marker c1 c2 c3 c4 c5 c6 :
  contains marker
    (c1 ++ layout [ (h_value, c2); (h_pitch, c3); (h_bullets, c4);
                    (h_competitors, c5); (h_revenue, c6) ]) = false ->
  delimiter_free c1 -> delimiter_free c2 -> delimiter_free c3 ->
  delimiter_free c4 -> delimiter_free c5 -> delimiter_free c6 ->
  six_fields
    (parse_generated_text
       (c1 ++ layout [ (h_value, c2); (h_pitch, c3); (h_bullets, c4);
                       (h_competitors, c5); (h_revenue, c6) ]))
    (strip c1) (strip c2) (strip c3) (strip c4) (strip c5) (strip c6).
Proof.
  intros Hm H1 H2 H3 H4 H5 H6.
  rewrite (parse_no_marker c1 _ Hm H1
             (well_formed_five _ _ _ _ _ H2 H3 H4 H5 H6)).
  eexists. split; [reflexivity|].
  repeat split; rewrite lookup_foldl; cbn [written map];
    rewrite ?assignment_tagline, ?assignment_value, ?assignment_pitch,
      ?assignment_bullets, ?assignment_competitors, ?assignment_revenue;
    repeat case_decide; simplify_eq; done.
Qed.

Lemma parse_without_marker_witness :
  six_fields
    (parse_generated_text
       (s_lead ++ layout [ (h_value, s_value); (h_pitch, s_pitch);
                           (h_bullets, s_bullets);
                           (h_competitors, s_competitors);
                           (h_revenue, s_revenue) ]))
    (strip s_lead) (strip s_value) (strip s_pitch) (strip s_bullets)
    (strip s_competitors) (strip s_revenue).
Proof. apply parse_without_marker; reflexivity. Defined.

(** C5 (as stated) fails: without the marker, a leading content is cut at
    a [## ] inside it, and the tagline field holds the part before. *)
Lemma leading_content_cut_short :
  contains marker
    (s_lead_delimiter
       ++ layout [ (h_value, s_value); (h_pitch, s_pitch);
                   (h_bullets, s_bullets); (h_competitors, s_competitors);
                   (h_revenue, s_revenue) ]) = false
  /\ field_of
       (parse_generated_text
          (s_lead_delimiter
             ++ layout [ (h_value, s_value); (h_pitch, s_pitch);
                         (h_bullets, s_bullets);
                         (h_competitors, s_competitors);
                         (h_revenue, s_revenue) ])) "tagline"
     = Some (lit "Left-handed?")
  /\ strip s_lead_delimiter <> lit "Left-handed?".
Proof. repeat split; vm_compute; done. Qed.

(** ** One round of the loop *)

Lemma contains_nonempty key s :
  key <> [] -> contains key s = true -> s <> [].
Proof. intros Hk H ->. destruct key; done. Qed.

(** A chunk whose normalized header contains a key is not blank. *)
Lemma header_not_blank key part :
  key <> [] -> contains key (header_of part) = true ->
  truthy (strip part) = true.
Proof.
  intros Hk H. apply contains_nonempty in H; [|done].
  unfold header_of in H. rewrite truthy_strip.
  destruct (cut closer part) as [[a b]|] eqn:C.
  - apply cut_inv in C as ->. rewrite forallb_app.
    destruct (forallb isspace a) eqn:E; [|done].
    exfalso. apply H. apply lstrip_nil in E.
    unfold strip. by rewrite E.
  - destruct (forallb isspace part) eqn:E; [|done].
    exfalso. apply H. apply lstrip_nil in E.
    unfold strip. by rewrite E.
Qed.

Lemma first_match_at keys header i key field :
  keys !! i = Some (key, field) ->
  contains key header = true ->
  (forall j key' field',
      j < i -> keys !! j = Some (key', field') ->
      contains key' header = false) ->
  first_match keys header = Some field.
Proof.
  revert i. induction keys as [|[k f] rest IH]; intros [|i] Hi Hc Hbefore;
    try done.
  - injection Hi as -> ->. cbn [first_match]. by rewrite Hc.
  - cbn [first_match]. rewrite (Hbefore 0 k f); [|lia|done].
    apply (IH i); [done|done|].
    intros j key' field' Hj Hl. apply (Hbefore (S j) key' field'); first [lia|done].
Qed.

Lemma known_key_nonempty i key field :
  known_keys !! i = Some (key, field) -> key <> [].
Proof.
  do 6 (destruct i as [|i]; [by intros [= <- <-]|]). done.
Qed.

(** C8 (as amended): a chunk whose normalized header contains a known key,
    and none of the keys tested before it, has its trimmed content
    assigned to the field of that key; containment is enough, equality is
    not needed. *)
Theorem process_part_first_key sections part i key field :
  known_keys !! i = Some (key, field) ->
  contains key (header_of part) = true ->
  (forall j key' field',
      j < i -> known_keys !! j = Some (key', field') ->
      contains key' (header_of part) = false) ->
  process_part sections part
  = Returned (<[field := content_of part]> sections).
Proof.
  intros Hi Hc Hbefore. rewrite process_part_eq. f_equal.
  unfold assign, assignment.
  rewrite (header_not_blank key part (known_key_nonempty _ _ _ Hi) Hc).
  by rewrite (first_match_at _ _ i key field Hi Hc Hbefore).
Qed.

Lemma process_part_first_key_witness :
  header_of tagline_v2 = lit "tagline_v2"
  /\ process_part default_sections tagline_v2
     = Returned (<["tagline"%string := lit "Cut right."]> default_sections)
  /\ process_part default_sections main_competitors
     = Returned (<["competitors"%string := lit "Fiskars"]> default_sections).
Proof.
  split; [vm_compute; reflexivity|]. split.
  - apply (process_part_first_key default_sections tagline_v2 0
             (lit "tagline") "tagline").
    + reflexivity.
    + vm_compute. reflexivity.
    + intros j key' field' Hj. lia.
  - apply (process_part_first_key default_sections main_competitors 4
             (lit "competitors") "competitors").
    + reflexivity.
    + vm_compute. reflexivity.
    + intros j key' field' Hj Hl.
      do 4 (destruct j as [|j];
            [injection Hl as <- <-; vm_compute; reflexivity|]).
      lia.
Defined.

(** C8 (as stated) fails: the header contains [competitors], but it also
    contains [tagline], which is tested first; the content goes to the
    tagline field and the competitors field is left as it was. *)
Lemma competitors_key_shadowed :
  (lit "competitors", "competitors"%string) ∈ known_keys
  /\ contains (lit "competitors") (header_of two_keys) = true
  /\ process_part default_sections two_keys
     = Returned (<["tagline"%string := content_of two_keys]> default_sections)
  /\ process_part default_sections two_keys
     <> Returned (<["competitors"%string := content_of two_keys]>
                   default_sections).
Proof.
  split; [vm_compute; set_solver|]. split; [reflexivity|].
  assert (E : process_part default_sections two_keys
     = Returned (<["tagline"%string := content_of two_keys]> default_sections)).
  { rewrite process_part_eq. unfold assign.
    assert (assignment two_keys
            = Some ("tagline"%string, content_of two_keys)) as ->
      by (vm_compute; reflexivity).
    done. }
  split; [exact E|]. rewrite E. intros H.
  apply (f_equal (fun r => field_of r "tagline")) in H.
  vm_compute in H. discriminate H.
Qed.

(** ** The result as a whole *)

Lemma default_value k v : default_sections !! k = Some v -> v = not_found.
Proof.
  unfold default_sections. intros H.
  apply elem_of_list_to_map_2 in H.
  rewrite !elem_of_cons, elem_of_nil in H.
  destruct H as [H|[H|[H|[H|[H|[H|[]]]]]]]; by injection H as _ ->.
Qed.

(** C10: on every input the parser returns, the dictionary has exactly the
    six keys, and each value is [Not found] or a trimmed text. *)
Theorem parse_total_shape text :
  exists m, parse_generated_text text = Returned m
    /\ dom m = six_keys
    /\ forall k v, m !! k = Some v -> v = not_found \/ strip v = v.
Proof.
  rewrite parse_eq. eexists. split; [reflexivity|]. split.
  - apply dom_foldl, dom_default.
  - intros k v. rewrite lookup_foldl.
    destruct (written k _) as [w|] eqn:W.
    + intros [= ->]. apply written_Some in W as (p & _ & E).
      right. by apply assignment_strip in E.
    + intros H. left. by apply default_value in H.
Qed.

Lemma generate_eq service idea tr raw :
  generate_pitch_content service idea = (tr, Returned raw) ->
  generate service idea
  = if contains (lit "Error:") raw then
      (tr ++ [TemplateRendered "results.html" {[ "error"%string := raw ]}],
       Returned ("results.html"%string, {[ "error"%string := raw ]}))
    else
      match parse_generated_text raw with
      | Returned pitch_data =>
          (tr ++ [ParserCalled raw;
                  TemplateRendered "results.html" pitch_data],
           Returned ("results.html"%string, pitch_data))
      | Raised e => (tr ++ [ParserCalled raw], Raised e)
      end.
Proof.
  intros H. unfold generate. rewrite H.
  unfold mbind, io_bind, render_template, emit, lift, mret, io_ret.
  destruct (contains (lit "Error:") raw); [reflexivity|].
  by destruct (parse_generated_text raw).
Qed.

(** ** The model client and the handler *)

Lemma client_cases service idea :
  generate_pitch_content service idea
  = match service (prompt idea) with
    | Returned reply => ([ModelCalled (prompt idea)], Returned reply)
    | Raised e =>
        ([ModelCalled (prompt idea);
          Printed (lit "Gemini API request failed: " ++ exn_str e)],
         Returned (lit "Error:" ++ failure_notice ++ exn_str e))
    end.
Proof.
  unfold generate_pitch_content.
  by destruct (service (prompt idea)).
Qed.

(** C7: the model client always returns: the reply of the service as it
    is, or, when the service raises, a text that begins with [Error:] and
    goes on with a description that ends with the exception's message. *)
Theorem generate_pitch_content_returns service idea :
  match service (prompt idea) with
  | Returned reply =>
      generate_pitch_content service idea
      = ([ModelCalled (prompt idea)], Returned reply)
  | Raised e =>
      generate_pitch_content service idea
      = ([ModelCalled (prompt idea);
          Printed (lit "Gemini API request failed: " ++ exn_str e)],
         Returned (lit "Error:" ++ failure_notice ++ exn_str e))
      /\ startswith (lit "Error:")
           (lit "Error:" ++ failure_notice ++ exn_str e) = true
  end.
Proof.
  rewrite client_cases.
  destruct (service (prompt idea)) as [reply|e]; [done|].
  split; [done|]. apply startswith_app.
Qed.

Lemma client_total service idea :
  exists tr raw,
    generate_pitch_content service idea = (tr, Returned raw)
    /\ parser_calls tr = [].
Proof.
  rewrite client_cases.
  destruct (service (prompt idea)) as [reply|e]; by eexists _, _.
Qed.

(** C6: the handler branches on whether the reply of the model client
    contains [Error:] and on nothing else.  If it does, the response is
    the results page with the reply under the key [error], and the parser
    is not called; if it does not, the parser is called once, on the
    reply, and the response is the results page with the six-field
    dictionary.  On the reply [Error: quota exceeded] the first case
    applies. *)
Theorem generate_branches :
  (forall service idea,
      exists tr raw,
        generate_pitch_content service idea = (tr, Returned raw)
        /\ if contains (lit "Error:") raw then
             generate service idea
             = (tr ++ [TemplateRendered "results.html"
                         {[ "error"%string := raw ]}],
                Returned ("results.html"%string,
                          {[ "error"%string := raw ]}))
             /\ parser_calls (generate service idea).1 = []
           else
             exists pitch_data,
               parse_generated_text raw = Returned pitch_data
               /\ dom pitch_data = six_keys
               /\ generate service idea
                  = (tr ++ [ParserCalled raw;
                            TemplateRendered "results.html" pitch_data],
                     Returned ("results.html"%string, pitch_data))
               /\ parser_calls (generate service idea).1 = [raw])
  /\ (forall idea,
         generate (fun _ => Returned quota_reply) idea
         = ([ModelCalled (prompt idea);
             TemplateRendered "results.html"
               {[ "error"%string := quota_reply ]}],
            Returned ("results.html"%string,
                      {[ "error"%string := quota_reply ]}))).
Proof.
  split.
  - intros service idea.
    destruct (client_total service idea) as (tr & raw & H & Hcalls).
    exists tr, raw. split; [done|].
    rewrite (generate_eq _ _ _ _ H).
    destruct (contains (lit "Error:") raw).
    + split; [done|].
      unfold parser_calls in *. cbn [fst]. by rewrite omap_app, Hcalls.
    + rewrite parse_eq.
      eexists. split; [reflexivity|]. split; [apply dom_foldl, dom_default|].
      split; [done|].
      unfold parser_calls in *. cbn [fst]. by rewrite omap_app, Hcalls.
  - intros idea. reflexivity.
Qed.

(** * Further properties *)

(** ** Occurrences *)

Lemma contains_unfold sub s :
  contains sub s
  = startswith sub s || match s with [] => false | _ :: t => contains sub t end.
Proof. by destruct s. Qed.

Lemma startswith_contains sub s :
  startswith sub s = true -> contains sub s = true.
Proof. intros H. by rewrite contains_unfold, H. Qed.

Lemma contains_app_r sub u v :
  contains sub v = true -> contains sub (u ++ v) = true.
Proof.
  intros H. induction u as [|a u IH]; [done|].
  change ((a :: u) ++ v) with (a :: (u ++ v)). cbn [contains].
  by rewrite IH, orb_true_r.
Qed.

Lemma contains_middle sub u v : contains sub (u ++ sub ++ v) = true.
Proof. apply contains_app_r, startswith_contains, startswith_app. Qed.

(** A text with the marker has the delimiter. *)
Lemma marker_has_opener s :
  contains marker s = true -> contains opener (closer ++ s) = true.
Proof.
  intros H. destruct (cut marker s) as [[a b]|] eqn:C.
  - apply cut_inv in C as ->.
    replace (closer ++ a ++ marker ++ b)
      with ((closer ++ a) ++ opener ++ (synthetic ++ b))
      by (by rewrite <- app_assoc).
    apply contains_middle.
  - apply cut_None in C. congruence.
Qed.

(** X1: a reply in which the delimiter [## ] does not arise, so one
    without any header, and the empty reply among them, is taken whole as
    the tagline: the tagline field holds the trimmed reply and the five
    other fields keep [Not found]. *)
Theorem parse_plain_text text :
  delimiter_free text ->
  parse_generated_text text
  = Returned (<["tagline"%string := strip text]> default_sections).
Proof.
  intros Hd. rewrite parse_eq. unfold remainder, parts_of.
  assert (Hm : cut marker text = None).
  { apply cut_None. destruct (contains marker text) eqn:E; [|done].
    apply marker_has_opener in E. unfold delimiter_free in Hd. congruence. }
  rewrite Hm, split_no_opener by (by apply tagline_chunk_delimiter_free).
  cbn [foldl]. unfold assign. by rewrite assignment_tagline.
Qed.

Lemma parse_plain_text_witness :
  parse_generated_text s_plain
  = Returned (<["tagline"%string := strip s_plain]> default_sections)
  /\ parse_generated_text []
     = Returned (<["tagline"%string := []]> default_sections).
Proof.
  split.
  - apply parse_plain_text. reflexivity.
  - apply (parse_plain_text []). reflexivity.
Defined.

(** ** The first chunk *)

Lemma lstrip_keep c t : isspace c = false -> lstrip (c :: t) = c :: t.
Proof. intros H. cbn [lstrip]. by rewrite H. Qed.

(** Whatever follows it, a header that begins with [Tagline ] is
    normalized to a text that begins with [tagline]. *)
Lemma normalized_tagline z :
  startswith (lit "tagline") (normalized (lit "Tagline " ++ z)) = true.
Proof.
  unfold normalized, strip, lit. cbn [list_ascii_of_string app].
  rewrite lstrip_keep by reflexivity.
  do 7 (rewrite rstrip_cons by reflexivity).
  reflexivity.
Qed.

(** Text cut off a text that begins with [Tagline ], at a [##], still
    begins with [Tagline ]. *)
Lemma tagline_prefix_kept a sep_tail y z :
  a ++ "#"%char :: sep_tail ++ y = lit "Tagline " ++ z ->
  exists w, a = lit "Tagline " ++ w.
Proof.
  intros H. unfold lit in *. cbn [list_ascii_of_string app] in H.
  do 8 (destruct a as [|? a]; [discriminate H|]).
  cbn [app] in H. injection H as -> -> -> -> -> -> -> -> _.
  by exists a.
Qed.

Lemma tagline_header w :
  contains (lit "tagline") (header_of (lit "Tagline " ++ w)) = true.
Proof.
  apply startswith_contains. unfold header_of.
  destruct (cut closer (lit "Tagline " ++ w)) as [[a b]|] eqn:C.
  - apply cut_inv in C. symmetry in C.
    destruct (tagline_prefix_kept a ["#"%char] b w C) as [x ->].
    apply normalized_tagline.
  - apply normalized_tagline.
Qed.

(** The loop always starts with a chunk that begins with [Tagline ]. *)
Lemma first_part clean :
  exists w rest, parts_of clean = (lit "Tagline " ++ w) :: rest.
Proof.
  unfold parts_of. rewrite split_unfold by apply opener_nonempty.
  destruct (cut opener (synthetic ++ clean)) as [[a b]|] eqn:C.
  - apply cut_inv in C. symmetry in C.
    destruct (tagline_prefix_kept a ["#"%char; " "%char] b
                (closer ++ clean) C) as [x ->].
    by eexists _, _.
  - by exists (closer ++ clean), [].
Qed.

(** X2: the tagline field never keeps its default: on every input the
    loop writes it, and it holds the trimmed content of a chunk whose
    normalized header contains [tagline] (at least the chunk that the
    prepended [Tagline ##] begins). *)
Theorem tagline_always_written text :
  exists m part,
    parse_generated_text text = Returned m
    /\ part ∈ parts_of (remainder text)
    /\ contains (lit "tagline") (header_of part) = true
    /\ m !! "tagline"%string = Some (content_of part).
Proof.
  rewrite parse_eq. eexists. 
  destruct (written "tagline" (parts_of (remainder text))) as [v|] eqn:W.
  - pose proof W as (part & Hin & E)%written_Some.
    exists part. split; [reflexivity|]. split; [done|].
    unfold assignment in E. destruct (truthy _); [|done].
    destruct (first_match _ _) as [f|] eqn:F; [|done].
    injection E as -> <-. split.
    + apply (first_match_contains _ "tagline"); [by left|done].
    + by rewrite lookup_foldl, W.
  - exfalso.
    destruct (first_part (remainder text)) as (w & rest & Hp).
    apply (written_None _ _ (lit "Tagline " ++ w)
             (content_of (lit "Tagline " ++ w)) W).
    + rewrite Hp. by left.
    + unfold assignment.
      rewrite (header_not_blank (lit "tagline")); [|done|apply tagline_header].
      unfold known_keys. cbn [first_match]. by rewrite tagline_header.
Qed.

(** ** Sections after the marker *)

(** The chunks that the text before the marker leaves do not depend on
    what follows the marker. *)
Lemma parts_after_marker_uniform pre :
  exists parts0, forall rest,
    parts_of (remainder (pre ++ marker ++ rest))
    = parts0 ++ split opener (synthetic ++ rest).
Proof.
  destruct (cut_leftmost marker pre []) as (a & b0 & C & Hlen).
  assert (Hcut : forall rest,
             cut marker (pre ++ marker ++ rest) = Some (a, b0 ++ rest)).
  { intros rest. apply (cut_app _ _ rest) in C.
    by rewrite <- !app_assoc in C. }
  apply cut_inv in C.
  assert (Ha : a = take (length a) pre).
  { apply (f_equal (take (length a))) in C.
    rewrite take_app_le in C by done. by rewrite take_app_length in C. }
  rewrite <- (take_drop (length a) pre), <- Ha, <- app_assoc in C.
  apply app_inv_head in C.
  destruct (drop (length a) pre) as [|x [|y [|z d]]]; simpl in C.
  - injection C as <-. exists []. intros rest.
    unfold parts_of, remainder. by rewrite Hcut.
  - discriminate C.
  - discriminate C.
  - injection C as -> -> -> C.
    exists (split opener d). intros rest.
    unfold parts_of, remainder. rewrite Hcut.
    assert (synthetic ++ b0 = d ++ opener ++ synthetic) as E
      by (symmetry; exact C).
    rewrite app_assoc, E, <- !app_assoc.
    apply split_opener_app.
Qed.

Lemma parse_sections_uniform pre :
  exists parts0, forall c1 secs,
    delimiter_free c1 -> Forall well_formed secs ->
    parse_generated_text (pre ++ layout ((h_tagline, c1) :: secs))
    = Returned (foldl assign default_sections
                  (parts0 ++ (synthetic ++ c1) :: map chunk secs)).
Proof.
  destruct (parts_after_marker_uniform pre) as [parts0 Hp].
  exists parts0. intros c1 secs Hc Hsecs. rewrite parse_eq.
  replace (pre ++ layout ((h_tagline, c1) :: secs))
    with (pre ++ marker ++ c1 ++ layout secs).
  - rewrite Hp, app_assoc, split_layout; [done| |done].
    by apply tagline_chunk_delimiter_free.
  - unfold layout. cbn [map concat]. simpl.
    by rewrite <- ?app_assoc.
Qed.

Lemma well_formed_section title c :
  hashfree title = true -> delimiter_free c ->
  well_formed (section_of title c).
Proof. intros Ht Hc. by exists title. Qed.

Lemma assignment_section title c :
  hashfree title = true ->
  assignment (chunk (section_of title c))
  = match first_match known_keys (normalized title) with
    | Some field => Some (field, strip c)
    | None => None
    end.
Proof.
  intros Ht.
  change (chunk (section_of title c)) with ((title ++ closer) ++ c).
  by rewrite <- app_assoc, assignment_chunk.
Qed.

(** X3: the last section decides: when a reply ends with a section whose
    normalized title contains a known key (and none tested before it), the
    field of that key holds the trimmed content of this last section,
    whatever earlier sections, also of the same title, and whatever text
    before the first [## Tagline ##] there are. *)
Theorem last_section_wins pre c1 secs title c field :
  delimiter_free c1 -> Forall well_formed secs ->
  hashfree title = true -> delimiter_free c ->
  first_match known_keys (normalized title) = Some field ->
  exists m,
    parse_generated_text
      (pre ++ layout ((h_tagline, c1) :: secs ++ [section_of title c]))
    = Returned m
    /\ m !! field = Some (strip c).
Proof.
  intros H1 Hsecs Ht Hc Hf.
  assert (Hwf : Forall well_formed (secs ++ [section_of title c])).
  { apply Forall_app. split; [done|].
    apply Forall_singleton. by apply well_formed_section. }
  destruct (parse_sections pre c1 _ H1 Hwf) as [parts0 ->].
  eexists. split; [reflexivity|].
  rewrite lookup_foldl, map_app.
  change (parts0 ++ (synthetic ++ c1)
            :: map chunk secs ++ map chunk [section_of title c])
    with (parts0 ++ ((synthetic ++ c1) :: map chunk secs)
            ++ [chunk (section_of title c)]).
  rewrite app_assoc, written_app. cbn [written map].
  rewrite assignment_section, Hf by done. by rewrite decide_True.
Qed.

Lemma last_section_wins_witness :
  exists m,
    parse_generated_text
      (s_intro
         ++ layout ((h_tagline, s_tagline)
                      :: [ (h_competitors, s_competitors);
                           (h_value, s_value) ]
                      ++ [section_of (lit "Competitors ")
                            s_competitors_again]))
    = Returned m
    /\ m !! "competitors"%string = Some (strip s_competitors_again).
Proof.
  apply (last_section_wins s_intro s_tagline _ (lit "Competitors ")
           s_competitors_again "competitors").
  - reflexivity.
  - repeat apply Forall_cons_2; [| |apply Forall_nil_2].
    + by apply (well_formed_header (lit "Competitors ")).
    + by apply (well_formed_header (lit "Value Proposition ")).
  - reflexivity.
  - reflexivity.
  - vm_compute. reflexivity.
Defined.

(** X4: in a reply of well-formed sections (titles without [#], contents
    in which the delimiter [## ] does not arise, that of the dropped
    section included), a section whose normalized title contains none of
    the six keys is dropped: the reply is parsed as if the section, header
    and content, were not there. *)
Theorem unknown_section_dropped pre c1 secs1 secs2 title c :
  delimiter_free c1 ->
  Forall well_formed secs1 -> Forall well_formed secs2 ->
  hashfree title = true -> delimiter_free c ->
  first_match known_keys (normalized title) = None ->
  parse_generated_text
    (pre ++ layout ((h_tagline, c1)
                      :: secs1 ++ section_of title c :: secs2))
  = parse_generated_text
      (pre ++ layout ((h_tagline, c1) :: secs1 ++ secs2)).
Proof.
  intros H1 Hs1 Hs2 Ht Hc Hf.
  destruct (parse_sections_uniform pre) as [parts0 Hp].
  rewrite !Hp; try done.
  - f_equal. rewrite !map_app. cbn [map].
    rewrite !app_comm_cons, !app_assoc, !foldl_app. cbn [foldl].
    f_equal. unfold assign at 1.
    by rewrite assignment_section, Hf.
  - apply Forall_app. by split.
  - apply Forall_app. split; [done|].
    apply Forall_cons_2; [by apply well_formed_section|done].
Qed.

Lemma unknown_section_dropped_witness :
  parse_generated_text
    (s_intro
       ++ layout ((h_tagline, s_tagline)
                    :: [ (h_value, s_value) ]
                    ++ section_of (lit "Team ") s_team
                    :: [ (h_revenue, s_revenue) ]))
  = parse_generated_text
      (s_intro
         ++ layout ((h_tagline, s_tagline)
                      :: [ (h_value, s_value) ]
                      ++ [ (h_revenue, s_revenue) ])).
Proof.
  apply (unknown_section_dropped s_intro s_tagline).
  - reflexivity.
  - apply Forall_singleton.
    by apply (well_formed_header (lit "Value Proposition ")).
  - apply Forall_singleton.
    by apply (well_formed_header (lit "Revenue Models ")).
  - reflexivity.
  - reflexivity.
  - vm_compute. reflexivity.
Defined.

Lemma isspace_lower c : isspace (lower_char c) = isspace c.
Proof. destruct c as [[] [] [] [] [] [] [] []]; reflexivity. Qed.

Lemma lstrip_lower s : lstrip (lower s) = lower (lstrip s).
Proof.
  induction s as [|c t IH]; [done|]. unfold lower in *. cbn [map lstrip].
  rewrite isspace_lower. by destruct (isspace c).
Qed.

Lemma strip_lower s : strip (lower s) = lower (strip s).
Proof.
  unfold strip, rstrip, lower.
  change (map lower_char) with lower.
  rewrite lstrip_lower. unfold lower.
  rewrite <- map_rev. change (map lower_char) with lower.
  rewrite lstrip_lower. unfold lower. by rewrite map_rev.
Qed.

(** X5: after the first [## Tagline ##], which is matched letter for
    letter, the case of the letters of a header does not matter: a section
    is parsed as the section whose title has the same letters in any other
    case. *)
Theorem header_case_ignored pre c1 secs1 secs2 title title' c :
  delimiter_free c1 ->
  Forall well_formed secs1 -> Forall well_formed secs2 ->
  hashfree title = true -> hashfree title' = true -> delimiter_free c ->
  lower title' = lower title ->
  parse_generated_text
    (pre ++ layout ((h_tagline, c1)
                      :: secs1 ++ section_of title' c :: secs2))
  = parse_generated_text
      (pre ++ layout ((h_tagline, c1)
                        :: secs1 ++ section_of title c :: secs2)).
Proof.
  intros H1 Hs1 Hs2 Ht Ht' Hc Hl.
  destruct (parse_sections_uniform pre) as [parts0 Hp].
  assert (Hwf : forall t, hashfree t = true ->
             Forall well_formed (secs1 ++ section_of t c :: secs2)).
  { intros t Hft. apply Forall_app. split; [done|].
    apply Forall_cons_2; [by apply well_formed_section|done]. }
  rewrite !Hp by auto.
  f_equal. rewrite !map_app. cbn [map].
  rewrite !app_comm_cons, !app_assoc, !foldl_app. cbn [foldl].
  f_equal. unfold assign.
  rewrite !assignment_section by done.
  unfold normalized. by rewrite <- !strip_lower, Hl.
Qed.

Lemma header_case_ignored_witness :
  parse_generated_text
    (s_intro
       ++ layout ((h_tagline, s_tagline)
                    :: [ (h_value, s_value) ]
                    ++ section_of (lit "COMPETITORS ") s_competitors
                    :: [ (h_revenue, s_revenue) ]))
  = parse_generated_text
      (s_intro
         ++ layout ((h_tagline, s_tagline)
                      :: [ (h_value, s_value) ]
                      ++ section_of (lit "Competitors ") s_competitors
                      :: [ (h_revenue, s_revenue) ])).
Proof.
  apply (header_case_ignored s_intro s_tagline).
  - reflexivity.
  - apply Forall_singleton.
    by apply (well_formed_header (lit "Value Proposition ")).
  - apply Forall_singleton.
    by apply (well_formed_header (lit "Revenue Models ")).
  - reflexivity.
  - reflexivity.
  - reflexivity.
  - vm_compute. reflexivity.
Defined.

Lemma hashfree_cut_marker pre rest :
  hashfree pre = true -> cut marker (pre ++ marker ++ rest) = Some (pre, rest).
Proof.
  induction pre as [|a t IH]; [intros _; exact (cut_here marker rest)|].
  intros H. apply hashfree_cons in H as [Ha Ht].
  change ((a :: t) ++ marker ++ rest) with (a :: (t ++ marker ++ rest)).
  cbn [cut]. rewrite (IH Ht).
  unfold marker at 1, lit. cbn [list_ascii_of_string].
  by rewrite startswith_head.
Qed.

(** X6: a section that the reply lacks is reported as [Not found]: when
    the text before the first header has no [#], the sections are well
    formed (titles without [#], contents in which the delimiter [## ]
    does not arise) and no section after the Tagline section has a
    normalized title that contains a key, the field of that key, other
    than the tagline, holds [Not found]. *)
Theorem missing_section_not_found pre c1 secs key field :
  hashfree pre = true -> delimiter_free c1 -> Forall well_formed secs ->
  (key, field) ∈ known_keys -> field <> "tagline"%string ->
  (forall title c,
      hashfree title = true -> section_of title c ∈ secs ->
      contains key (normalized title) = false) ->
  exists m,
    parse_generated_text (pre ++ layout ((h_tagline, c1) :: secs))
    = Returned m
    /\ m !! field = Some not_found.
Proof.
  intros Hpre H1 Hsecs Hk Hf Habsent. rewrite parse_eq.
  eexists. split; [reflexivity|].
  replace (pre ++ layout ((h_tagline, c1) :: secs))
    with (pre ++ marker ++ c1 ++ layout secs)
    by (unfold layout; cbn [map concat]; simpl; by rewrite <- ?app_assoc).
  unfold remainder, parts_of. rewrite hashfree_cut_marker by done.
  rewrite app_assoc, split_layout;
    [|by apply tagline_chunk_delimiter_free|done].
  rewrite lookup_foldl, written_none; [by apply (default_lookup key)|].
  intros p v [->|Hp]%elem_of_cons.
  - rewrite assignment_tagline. congruence.
  - apply list_elem_of_fmap in Hp as (s & -> & Hs).
    pose proof Hs as Hwf. eapply Forall_forall in Hwf; [|exact Hsecs].
    destruct Hwf as (title & Hh & Ht & Hc). destruct s as [h c].
    cbn [fst snd] in Hh, Hc. subst h.
    change (opener ++ title ++ closer, c) with (section_of title c) in *.
    rewrite assignment_section by done.
    destruct (first_match known_keys (normalized title)) as [f|] eqn:F;
      [|done].
    intros [= -> _].
    apply (first_match_contains key) in F; [|done].
    by rewrite (Habsent title c) in F.
Qed.

Lemma missing_section_not_found_witness :
  exists m,
    parse_generated_text
      (s_intro ++ layout ((h_tagline, s_tagline)
                            :: [ section_of (lit "Value Proposition ") s_value;
                                 section_of (lit "Revenue Models ")
                                   s_revenue ]))
    = Returned m
    /\ m !! "competitors"%string = Some not_found.
Proof.
  apply (missing_section_not_found s_intro s_tagline _ (lit "competitors")).
  - reflexivity.
  - reflexivity.
  - repeat apply Forall_cons_2; [| |apply Forall_nil_2];
      by apply well_formed_section.
  - vm_compute. set_solver.
  - discriminate.
  - intros title c _ Hin.
    apply elem_of_cons in Hin as [Hin|Hin];
      [|apply elem_of_cons in Hin as [Hin|Hin];
        [|by apply elem_of_nil in Hin]];
      apply (f_equal fst) in Hin; unfold section_of in Hin;
      cbn [fst] in Hin;
      apply app_inv_head in Hin; apply app_inv_tail in Hin; subst title;
      vm_compute; reflexivity.
Defined.

(** ** The prompt *)

(** The prompt ends with the six sections asked for, each header followed
    by its hint. *)
Lemma prompt_tail_layout :
  prompt_tail
  = (nl ++ nl ++ lit "    Please structure your response clearly with the following sections, using the exact markdown headers:"
       ++ nl ++ indent ++ nl ++ indent)
      ++ layout
           [ (h_tagline, nl ++ indent ++ hint_tagline ++ nl ++ nl ++ indent);
             (h_value,
              nl ++ indent ++ hint_value ++ nl ++ indent ++ nl ++ indent);
             (h_pitch,
              nl ++ indent ++ hint_pitch ++ nl ++ indent ++ nl ++ indent);
             (h_bullets,
              nl ++ indent ++ hint_bullets ++ nl ++ indent ++ nl ++ indent);
             (h_competitors,
              nl ++ indent ++ hint_competitors ++ nl ++ indent ++ nl
                 ++ indent);
             (h_revenue, nl ++ indent ++ hint_revenue ++ nl ++ indent) ].
Proof. vm_compute. reflexivity. Qed.

(** X9: the prompt is itself a reply of the expected form, whatever the
    idea: parsing a reply that only repeats the prompt gives the six hints
    of the prompt as the six fields, so each header the prompt asks for is
    recognized as its field. *)
Theorem parse_echoed_prompt idea :
  six_fields (parse_generated_text (prompt idea))
    hint_tagline hint_value hint_pitch hint_bullets hint_competitors
    hint_revenue.
Proof.
  unfold prompt. rewrite prompt_tail_layout.
  match goal with
  | |- context [?t0 ++ layout ((h_tagline, ?c1) :: ?secs)] =>
      replace (prompt_head ++ [dquote] ++ idea ++ [dquote]
                 ++ t0 ++ layout ((h_tagline, c1) :: secs))
        with ((prompt_head ++ [dquote] ++ idea ++ [dquote] ++ t0)
                ++ layout ((h_tagline, c1) :: secs))
        by (by rewrite <- !app_assoc);
      destruct (parse_sections
                  (prompt_head ++ [dquote] ++ idea ++ [dquote] ++ t0)
                  c1 secs) as [parts0 Hparse]
  end.
  - reflexivity.
  - by apply well_formed_five.
  - eexists. split; [exact Hparse|].
    repeat split;
      (rewrite lookup_foldl, written_app; cbn [written map];
       rewrite ?assignment_tagline, ?assignment_value, ?assignment_pitch,
         ?assignment_bullets, ?assignment_competitors, ?assignment_revenue;
       repeat case_decide; simplify_eq; try done;
       f_equal; vm_compute; reflexivity).
Qed.

(** ** The handler as a whole *)

(** Once the idea is at hand, the handler gets to the rendering of the
    results page whatever the service does. *)
Lemma generate_reaches_page service idea :
  exists tr pitch_data,
    generate service idea
    = (tr, Returned ("results.html"%string, pitch_data))
    /\ (dom pitch_data = {[ "error"%string ]} \/ dom pitch_data = six_keys)
    /\ head tr = Some (ModelCalled (prompt idea))
    /\ last tr = Some (TemplateRendered "results.html" pitch_data).
Proof.
  pose proof (client_cases service idea) as H.
  destruct (service (prompt idea)) as [reply|e];
    rewrite (generate_eq _ _ _ _ H);
    match goal with
    | |- context [contains ?n ?r] => destruct (contains n r)
    end;
    try (eexists _, _; split; [reflexivity|]; split;
         [left; apply dom_singleton_L|done]);
    rewrite parse_eq;
    (eexists _, _; split; [reflexivity|]; split;
     [right; apply dom_foldl, dom_default|done]).
Qed.

Lemma error_text_detected x :
  contains (lit "Error:") (lit "Error:" ++ x) = true.
Proof. apply startswith_contains, startswith_app. Qed.

(** X8: a failure of the service reaches the user as an error page: when
    the service raises, the handler prints the diagnostic, does not call
    the parser, and renders the results page with the single key [error],
    whose text begins with [Error:] and ends with the exception's
    message. *)
Theorem generate_service_failure service idea e :
  service (prompt idea) = Raised e ->
  generate service idea
  = ([ ModelCalled (prompt idea);
       Printed (lit "Gemini API request failed: " ++ exn_str e);
       TemplateRendered "results.html"
         {[ "error"%string := lit "Error:" ++ failure_notice ++ exn_str e ]} ],
     Returned ("results.html"%string,
               {[ "error"%string
                  := lit "Error:" ++ failure_notice ++ exn_str e ]})).
Proof.
  intros He. pose proof (client_cases service idea) as H.
  rewrite He in H. rewrite (generate_eq _ _ _ _ H).
  by rewrite error_text_detected.
Qed.

Lemma generate_service_failure_witness :
  generate quota_failure s_lead
  = ([ ModelCalled (prompt s_lead);
       Printed (lit "Gemini API request failed: " ++ lit "quota exceeded");
       TemplateRendered "results.html"
         {[ "error"%string
            := lit "Error:" ++ failure_notice ++ lit "quota exceeded" ]} ],
     Returned ("results.html"%string,
               {[ "error"%string
                  := lit "Error:" ++ failure_notice
                       ++ lit "quota exceeded" ]})).
Proof.
  apply (generate_service_failure quota_failure s_lead
           (Exception (lit "quota exceeded"))).
  reflexivity.
Defined.

(** X10: from the reply to the page: when the service answers with the six
    sections in the order of the prompt, their contents free of the
    delimiter [## ], and the reply does not contain [Error:], the handler
    renders the results page with the six trimmed contents as the six
    fields, after one call of the model and one of the parser. *)
Theorem generate_renders_pitch service idea pre c1 c2 c3 c4 c5 c6 :
  service (prompt idea)
  = Returned (six_sections pre c1 c2 c3 c4 c5 c6) ->
  contains (lit "Error:") (six_sections pre c1 c2 c3 c4 c5 c6) = false ->
  delimiter_free c1 -> delimiter_free c2 -> delimiter_free c3 ->
  delimiter_free c4 -> delimiter_free c5 -> delimiter_free c6 ->
  exists pitch_data,
    generate service idea
    = ([ ModelCalled (prompt idea);
         ParserCalled (six_sections pre c1 c2 c3 c4 c5 c6);
         TemplateRendered "results.html" pitch_data ],
       Returned ("results.html"%string, pitch_data))
    /\ six_fields (Returned pitch_data)
         (strip c1) (strip c2) (strip c3) (strip c4) (strip c5) (strip c6).
Proof.
  intros Hs He H1 H2 H3 H4 H5 H6.
  pose proof (client_cases service idea) as H. rewrite Hs in H.
  rewrite (generate_eq _ _ _ _ H), He.
  unfold six_sections in *.
  destruct (parse_sections pre c1 _ H1
              (well_formed_five _ _ _ _ _ H2 H3 H4 H5 H6)) as [parts0 ->].
  eexists. split; [reflexivity|].
  eexists. split; [reflexivity|].
  repeat split; read_field.
Qed.

Lemma generate_renders_pitch_witness :
  exists pitch_data,
    generate good_service s_lead
    = ([ ModelCalled (prompt s_lead);
         ParserCalled (six_sections s_intro s_tagline s_value s_pitch
                         s_bullets s_competitors s_revenue);
         TemplateRendered "results.html" pitch_data ],
       Returned ("results.html"%string, pitch_data))
    /\ six_fields (Returned pitch_data)
         (strip s_tagline) (strip s_value) (strip s_pitch)
         (strip s_bullets) (strip s_competitors) (strip s_revenue).
Proof.
  apply (generate_renders_pitch good_service s_lead s_intro);
    reflexivity.
Defined.

(** ** Calls in a store *)

Lemma setitem_insert r k v (store : gmap positive (gmap string str)) d :
  store !! r = Some d ->
  setitem r k v store = <[r := <[k := v]> d]> store.
Proof.
  intros H. unfold setitem. apply map_eq. intros i.
  destruct (decide (i = r)) as [->|Hne].
  - by rewrite lookup_alter_eq, lookup_insert_eq, H.
  - by rewrite lookup_alter_ne, lookup_insert_ne.
Qed.

(** A round on the store changes the dictionary referred to as the round
    on a dictionary does, and nothing else. *)
Lemma process_part_in_eq r part (store : gmap positive (gmap string str)) d :
  store !! r = Some d ->
  process_part_in r part store = Returned (<[r := assign d part]> store).
Proof.
  intros H.
  unfold process_part_in, assign, assignment, header_of, content_of,
    split_once.
  destruct (truthy (strip part)); [|by rewrite insert_id].
  unfold known_keys. cbn [first_match].
  destruct (cut closer part) as [[a b]|]; cbn;
    repeat (destruct (contains _ _);
            [by rewrite (setitem_insert _ _ _ _ _ H)|]);
    by rewrite insert_id.
Qed.

Lemma for_parts_in_eq r parts (store : gmap positive (gmap string str)) d :
  store !! r = Some d ->
  for_parts_in r parts store = Returned (<[r := foldl assign d parts]> store).
Proof.
  revert store d. induction parts as [|p rest IH]; intros store d H.
  - cbn. by rewrite insert_id.
  - cbn [for_parts_in foldl]. rewrite (process_part_in_eq _ _ _ _ H). cbn.
    rewrite (IH _ (assign d p)) by apply lookup_insert_eq.
    by rewrite insert_insert_eq.
Qed.

(** A call creates one dictionary, at a reference that did not exist, and
    leaves in it what the parser computes from the text. *)
Lemma parse_in_eq (store : gmap positive (gmap string str)) text :
  parse_generated_text_in store text
  = Returned (fresh (dom store),
              <[fresh (dom store)
                := foldl assign default_sections
                     (parts_of (remainder text))]> store).
Proof.
  unfold parse_generated_text_in, new_dict. rewrite clean_text_eq. cbn.
  rewrite (for_parts_in_eq _ _ _ default_sections)
    by apply lookup_insert_eq.
  cbn. by rewrite insert_insert_eq.
Qed.

(** C9: the parser is a pure, deterministic function of its input text.
    The dictionary it returns is determined by the text alone, whatever
    dictionaries exist when it is called: each call creates a new
    dictionary and changes no other, so two calls on the same text, one
    after the other, return two distinct dictionaries with identical
    contents, the second call leaving the result of the first and every
    dictionary that existed before as they were. *)
Theorem parse_calls_independent text :
  exists d,
    parse_generated_text text = Returned d
    /\ forall store : gmap positive (gmap string str),
         exists r1 r2 store1 store2,
           parse_generated_text_in store text = Returned (r1, store1)
           /\ parse_generated_text_in store1 text = Returned (r2, store2)
           /\ store !! r1 = None
           /\ store1 !! r2 = None
           /\ r1 <> r2
           /\ store1 !! r1 = Some d
           /\ store2 !! r1 = Some d
           /\ store2 !! r2 = Some d
           /\ (forall r, r <> r1 -> r <> r2 -> store2 !! r = store !! r).
Proof.
  eexists. split; [apply parse_eq|]. intros store.
  set (d := foldl assign default_sections (parts_of (remainder text))).
  set (r1 := fresh (dom store)).
  set (store1 := <[r1 := d]> store).
  set (r2 := fresh (dom store1)).
  assert (H1 : store !! r1 = None)
    by apply not_elem_of_dom, is_fresh.
  assert (H2 : store1 !! r2 = None)
    by apply not_elem_of_dom, is_fresh.
  assert (Hne : r1 <> r2).
  { intros E. rewrite <- E in H2. unfold store1 in H2.
    by rewrite lookup_insert_eq in H2. }
  exists r1, r2, store1, (<[r2 := d]> store1).
  split; [apply parse_in_eq|]. split; [apply parse_in_eq|].
  split; [done|]. split; [done|]. split; [done|].
  split; [apply lookup_insert_eq|].
  split; [rewrite lookup_insert_ne by done; apply lookup_insert_eq|].
  split; [apply lookup_insert_eq|].
  intros r Hr1 Hr2. unfold store1.
  by rewrite !lookup_insert_ne.
Qed.

(** ** The route from the form on *)

(** X7: when the form has the field [idea], no exception of the service or
    of the parser escapes the handler: whatever the service does, the
    handler gets to the rendering of the results page, with data that has
    either the single key [error] or exactly the six keys of a pitch; the
    model is called first and the page is rendered last.  When the lookup
    of the field raises, that exception is the outcome, and neither the
    model nor the parser is called nor a page rendered. *)
Theorem generate_request_outcome service field :
  match field with
  | Returned idea =>
      exists tr pitch_data,
        generate_request service field
        = (tr, Returned ("results.html"%string, pitch_data))
        /\ (dom pitch_data = {[ "error"%string ]}
            \/ dom pitch_data = six_keys)
        /\ head tr = Some (ModelCalled (prompt idea))
        /\ last tr = Some (TemplateRendered "results.html" pitch_data)
  | Raised e => generate_request service field = ([], Raised e)
  end.
Proof.
  destruct field as [idea|e]; [|done].
  destruct (generate_reaches_page service idea)
    as (tr & pitch_data & Hg & Hrest).
  exists tr, pitch_data. split; [|done].
  unfold generate_request, lift, mbind, io_bind. cbv beta iota.
  by rewrite Hg.
Qed.
